(** * code-challenge: the wallet balance pipeline and the sum-to-n exercise

    A shallow embedding of
    - [src/problem3/src/components/WalletDemo.tsx]: the two wallet pages
      ([ProblematicWalletPage] and [OptimizedWalletPage]), from the
      balances to the rows that are rendered,
    - the three [sum_to_n] functions,
    - the price map, the exchange rate and the retry delay of the currency
      swap form,
    together with the part of ECMAScript they run on: the Number type
    (IEEE 754 binary64), property lookup on an object literal (own entries
    and the members inherited from [Object.prototype]),
    [Number.prototype.toFixed], [Array.prototype.sort], [Array.from] and
    [Array.prototype.reduce].  What ECMA-262 leaves to the engine is a
    parameter: the sort, of which ECMA-262 fixes the result only for a
    consistent comparator, and the length of the arrays that the engine
    can build.  Two sorts are given: an insertion sort and the sort of V8
    on short arrays. *)

From Stdlib Require Import ZArith List Bool Lia Ascii Sorted.
From Stdlib Require Import Floats.SpecFloat.
From stdpp Require Import gmap strings.

Local Open Scope Z_scope.

(** ** ECMAScript numbers *)

Module JS.

(** The Number type is IEEE 754 binary64: 53 bits of precision, infinities
    at exponent 1024, one NaN.  [spec_float] is the Standard Library's
    specification of it; its operations round to nearest, ties to even. *)
Definition number : Type := spec_float.

Definition prec : Z := 53.
Definition emax : Z := 1024.

Definition NaN : number := S754_nan.
Definition Infinity : number := S754_infinity false.

(** The Number value of an integer literal: the nearest binary64 value. *)
Definition num (z : Z) : number := binary_normalize prec emax z 0 false.

(** The Number value of a decimal literal [n / 10^d], correctly rounded
    (both operands of the division are exact for the literals used here). *)
Definition decimal (n : Z) (d : Z) : number :=
  SFdiv prec emax (num n) (num (10 ^ d)).

(** A [number] is a binary64 value when its mantissa is canonical. *)
Definition is_binary64 (x : number) : bool := valid_binary prec emax x.

Definition isNaN (x : number) : bool :=
  match x with S754_nan => true | _ => false end.

Definition isFinite (x : number) : bool :=
  match x with S754_nan | S754_infinity _ => false | _ => true end.

(** Relational and equality operators on numbers.  [a > b] is [b < a] and
    [a >= b] is [b <= a]; every comparison with NaN is false, and [!==] is
    the negation of [===], so [NaN !== NaN]. *)
Definition lt (a b : number) : bool := SFltb a b.
Definition gt (a b : number) : bool := SFltb b a.
Definition le (a b : number) : bool := SFleb a b.
Definition strict_eq (a b : number) : bool := SFeqb a b.
Definition strict_neq (a b : number) : bool := negb (SFeqb a b).

Definition add (a b : number) : number := SFadd prec emax a b.
Definition sub (a b : number) : number := SFsub prec emax a b.
Definition mul (a b : number) : number := SFmul prec emax a b.

(** Structural equality of two numbers (SameValue): NaN equals itself and
    the two zeros differ. *)
Definition same_value (a b : number) : bool :=
  match a, b with
  | S754_nan, S754_nan => true
  | S754_zero s, S754_zero t => Bool.eqb s t
  | S754_infinity s, S754_infinity t => Bool.eqb s t
  | S754_finite s m e, S754_finite t n f =>
      Bool.eqb s t && Pos.eqb m n && Z.eqb e f
  | _, _ => false
  end.

(** ToBoolean of a number: false for [+0], [-0] and NaN. *)
Definition ToBoolean (x : number) : bool :=
  match x with
  | S754_zero _ | S754_nan => false
  | _ => true
  end.

(** ** Values and property lookup *)

(** The members that an object literal inherits from [Object.prototype]:
    eleven functions and, under the name [__proto__], the prototype object
    itself.  They are twelve different objects. *)
Inductive inherited : Type :=
  | inh_constructor
  | inh_defineGetter
  | inh_defineSetter
  | inh_hasOwnProperty
  | inh_lookupGetter
  | inh_lookupSetter
  | inh_isPrototypeOf
  | inh_propertyIsEnumerable
  | inh_toString
  | inh_valueOf
  | inh_proto
  | inh_toLocaleString.

Definition inherited_index (o : inherited) : nat :=
  match o with
  | inh_constructor => 0
  | inh_defineGetter => 1
  | inh_defineSetter => 2
  | inh_hasOwnProperty => 3
  | inh_lookupGetter => 4
  | inh_lookupSetter => 5
  | inh_isPrototypeOf => 6
  | inh_propertyIsEnumerable => 7
  | inh_toString => 8
  | inh_valueOf => 9
  | inh_proto => 10
  | inh_toLocaleString => 11
  end.

(** The property of [Object.prototype] of a given name, if it has one. *)
Definition Object_prototype (name : string) : option inherited :=
  if String.eqb name "constructor" then Some inh_constructor
  else if String.eqb name "__defineGetter__" then Some inh_defineGetter
  else if String.eqb name "__defineSetter__" then Some inh_defineSetter
  else if String.eqb name "hasOwnProperty" then Some inh_hasOwnProperty
  else if String.eqb name "__lookupGetter__" then Some inh_lookupGetter
  else if String.eqb name "__lookupSetter__" then Some inh_lookupSetter
  else if String.eqb name "isPrototypeOf" then Some inh_isPrototypeOf
  else if String.eqb name "propertyIsEnumerable"
       then Some inh_propertyIsEnumerable
  else if String.eqb name "toString" then Some inh_toString
  else if String.eqb name "valueOf" then Some inh_valueOf
  else if String.eqb name "__proto__" then Some inh_proto
  else if String.eqb name "toLocaleString" then Some inh_toLocaleString
  else None.

(** The values that occur in these programs: the primitive values (BigInt
    and Symbol aside) and the inherited members.  A string comes with the
    number that ToNumber reads it as: StringToNumber is not modelled. *)
Inductive value : Type :=
  | Undefined
  | Null
  | Boolean (b : bool)
  | Num (x : number)
  | Str (s : string) (numeric : number)
  | Obj (o : inherited).

(** ToNumber.  An inherited member is brought to a primitive first: its
    [valueOf] returns the member itself, its [toString] a text (the source
    of a function, or ["[object Object]"]) that is no numeral. *)
Definition ToNumber (v : value) : number :=
  match v with
  | Undefined => NaN
  | Null => num 0
  | Boolean b => if b then num 1 else num 0
  | Num x => x
  | Str _ n => n
  | Obj _ => NaN
  end.

(** ToBoolean. *)
Definition truthy (v : value) : bool :=
  match v with
  | Undefined | Null => false
  | Boolean b => b
  | Num x => ToBoolean x
  | Str s _ => negb (String.eqb s "")
  | Obj _ => true
  end.

(** [a === b]: two values of the same type that are equal; two objects
    when they are the same object. *)
Definition strict_eq_value (a b : value) : bool :=
  match a, b with
  | Undefined, Undefined | Null, Null => true
  | Boolean x, Boolean y => Bool.eqb x y
  | Num x, Num y => strict_eq x y
  | Str s _, Str t _ => String.eqb s t
  | Obj o, Obj p => Nat.eqb (inherited_index o) (inherited_index p)
  | _, _ => false
  end.

(** [object[name]] on an object literal with Number entries: the own entry
    of that name, else the member that the literal inherits under that
    name, else [undefined]. *)
Definition Get (object : gmap string number) (name : string) : value :=
  match object !! name with
  | Some x => Num x
  | None =>
      match Object_prototype name with
      | Some o => Obj o
      | None => Undefined
      end
  end.

(** [v ?? d] and [v || d]. *)
Definition coalesce (v d : value) : value :=
  match v with
  | Undefined | Null => d
  | _ => v
  end.

Definition or_else (v d : value) : value := if truthy v then v else d.

(** ** Abrupt completions *)

(** The ways in which a run of these programs ends early: two exceptions
    and the engine running out of memory, which no program can catch. *)
Inductive error : Type := RangeError | TypeError | OutOfMemory.

Inductive completion (A : Type) : Type :=
  | Normal (a : A)
  | Throw (e : error).
Arguments Normal {A} a.
Arguments Throw {A} e.

#[export] Instance completion_ret : MRet completion := fun A a => Normal a.

#[export] Instance completion_bind : MBind completion := fun A B k c =>
  match c with
  | Normal a => k a
  | Throw e => Throw e
  end.

(** [Array.prototype.map] with a callback that may throw: the callback is
    called on the elements in order and the first exception ends the
    call. *)
Fixpoint Array_map {A B : Type} (f : A -> completion B) (l : list A)
  : completion (list B) :=
  match l with
  | [] => mret []
  | x :: t => y ← f x; r ← Array_map f t; mret (y :: r)
  end.

(** ** Number.prototype.toFixed *)

(** The character of a decimal digit [0..9]. *)
Definition digit_char (d : Z) : ascii := ascii_of_nat (48 + Z.to_nat d).


(** The digits of the decimal representation of a non-negative integer, in
    order, with no leading zeroes; [fuel] bounds the number of digits. *)
Fixpoint digits_go (fuel : nat) (n : Z) (acc : list ascii) : list ascii :=
  match fuel with
  | O => acc
  | S fuel' =>
      let acc' := digit_char (n mod 10) :: acc in
      if n <? 10 then acc' else digits_go fuel' (n / 10) acc'
  end.

Definition digits (n : Z) : list ascii :=
  digits_go (S (Z.to_nat (Z.log2 n))) n [].

(** The mathematical value of a finite number, as a sign and a fraction
    [p / q] with [q] a power of two; [x < 0] holds of the value, so it is
    false of [-0]. *)
Definition real_negative (x : number) : bool :=
  match x with S754_finite true _ _ => true | _ => false end.

Definition real_abs (x : number) : Z * Z :=
  match x with
  | S754_finite _ m e =>
      if 0 <=? e then (Z.pos m * 2 ^ e, 1) else (Z.pos m, 2 ^ (- e))
  | _ => (0, 1)
  end.

(** Number::toString on the values that are not finite. *)
Definition toString_nonfinite (x : number) : list ascii :=
  String.list_ascii_of_string
    match x with
    | S754_infinity false => "Infinity"
    | S754_infinity true => "-Infinity"
    | _ => "NaN"
    end.

(** Number::toString on a finite value of magnitude [X >= 10^21] (an
    integer): the least number [k] of digits [s] such that [s * 10^(n-k)]
    has Number value [X], the closest such [s], printed in exponential
    notation since [n > 21]. *)
Definition round_trips (X v : Z) : bool := same_value (num v) (num X).

Definition shortest_candidate (X D k : Z) : option (Z * Z) :=
  let u := 10 ^ (D - k) in
  let lo := X / u in
  let hi := lo + 1 in
  let pick (s : Z) := if s =? 10 ^ k then (10 ^ (k - 1), D + 1) else (s, D) in
  match round_trips X (lo * u), round_trips X (hi * u) with
  | true, true =>
      let dlo := X - lo * u in
      let dhi := hi * u - X in
      Some (pick (if dlo <? dhi then lo
                  else if dhi <? dlo then hi
                  else if Z.even lo then lo else hi))
  | true, false => Some (pick lo)
  | false, true => Some (pick hi)
  | false, false => None
  end.

Fixpoint shortest_search (fuel : nat) (X D k : Z) : Z * Z :=
  match fuel with
  | O => (X, D)
  | S fuel' =>
      match shortest_candidate X D k with
      | Some r => r
      | None => shortest_search fuel' X D (k + 1)
      end
  end.

Definition toString_exponential (X : Z) : list ascii :=
  let D := Z.of_nat (length (digits X)) in
  let '(s, n) := shortest_search (Z.to_nat D) X D 1 in
  let e := String.list_ascii_of_string "e+" ++ digits (n - 1) in
  match digits s with
  | [] => e
  | [d] => d :: e
  | d :: ds => d :: "."%char :: ds ++ e
  end.

(** [x.toFixed(fractionDigits)], with [fractionDigits] already an integer.
    Steps as in ECMA-262: a RangeError outside [0..100]; Number::toString
    for values that are not finite or of magnitude at least [10^21];
    otherwise the integer [n] with [n / 10^f] closest to the value (the
    larger on a tie), printed with [f] digits after the point. *)
Definition toFixed (x : number) (fractionDigits : Z) : completion string :=
  let f := fractionDigits in
  if (f <? 0) || (100 <? f) then Throw RangeError
  else if negb (isFinite x) then
    Normal (String.string_of_list_ascii (toString_nonfinite x))
  else
    let s := if real_negative x then ["-"%char] else [] in
    let '(p, q) := real_abs x in
    let m :=
      if 10 ^ 21 * q <=? p then toString_exponential (p / q)
      else
        let n := (2 * p * 10 ^ f + q) / (2 * q) in
        let m := digits n in
        if f =? 0 then m
        else
          let k := Z.of_nat (length m) in
          let m :=
            if k <=? f then repeat "0"%char (Z.to_nat (f + 1 - k)) ++ m
            else m in
          let k := Z.of_nat (length m) in
          firstn (Z.to_nat (k - f)) m ++ "."%char :: skipn (Z.to_nat (k - f)) m
    in
    Normal (String.string_of_list_ascii (s ++ m)).

(** [v.toFixed(fractionDigits)] on a value: only a Number has the method;
    on everything else the call is a TypeError. *)
Definition call_toFixed (v : value) (fractionDigits : Z) : completion string :=
  match v with
  | Num x => toFixed x fractionDigits
  | _ => Throw TypeError
  end.

(** ** Array.prototype.sort *)

(** SortCompare: the comparator is called on the two elements and a NaN
    result counts as [+0]. *)
Definition SortCompare {A : Type} (comparefn : A -> A -> number) (x y : A)
  : number :=
  let v := comparefn x y in
  if isNaN v then num 0 else v.

(** A sort: an insertion sort that inserts the elements one by one, from
    the last to the first; an element moves behind another one only when
    the comparator puts it strictly after. *)
Fixpoint sort_insert {A : Type} (comparefn : A -> A -> number) (x : A)
  (sorted : list A) : list A :=
  match sorted with
  | [] => [x]
  | y :: rest =>
      if gt (SortCompare comparefn x y) (num 0)
      then y :: sort_insert comparefn x rest
      else x :: sorted
  end.

Definition Array_sort {A : Type} (comparefn : A -> A -> number) (l : list A)
  : list A :=
  fold_right (sort_insert comparefn) [] l.

(** [after comparefn x y]: the comparator puts [x] strictly after [y];
    [before comparefn x y]: strictly before; [tie comparefn x y]: it gives
    them the same place. *)
Definition after {A : Type} (comparefn : A -> A -> number) (x y : A) : bool :=
  gt (SortCompare comparefn x y) (num 0).

Definition before {A : Type} (comparefn : A -> A -> number) (x y : A) : bool :=
  lt (SortCompare comparefn x y) (num 0).

Definition tie {A : Type} (comparefn : A -> A -> number) (x y : A) : bool :=
  strict_eq (SortCompare comparefn x y) (num 0).

(** A consistent comparator for the elements of a list (ECMA-262): every
    element ties with itself, ties are symmetric and transitive, and so are
    [before] and [after].  That a call returns the same Number each time,
    which is not NaN, holds of [SortCompare] on a function of this model. *)
Definition consistent {A : Type} (comparefn : A -> A -> number) (l : list A)
  : Prop :=
  forall a b c, In a l -> In b l -> In c l ->
    tie comparefn a a = true /\
    (tie comparefn a b = true -> tie comparefn b a = true) /\
    (tie comparefn a b = true -> tie comparefn b c = true ->
     tie comparefn a c = true) /\
    (before comparefn a b = true -> before comparefn b c = true ->
     before comparefn a c = true) /\
    (after comparefn a b = true -> after comparefn b c = true ->
     after comparefn a c = true).

(** What ECMA-262 asks of every implementation of the sort, when the
    comparator is consistent: the result is a permutation of the input, it
    is in sort order (no element is strictly after a later one), and the
    elements that tie with an element [x] keep the order of the input. *)
Definition sort_order {A : Type} (comparefn : A -> A -> number) (l : list A)
  : Prop :=
  StronglySorted (fun x y => after comparefn x y = false) l.

Definition stable_sort_of {A : Type} (comparefn : A -> A -> number)
  (input output : list A) : Prop :=
  Permutation input output /\
  sort_order comparefn output /\
  forall x, In x input ->
    List.filter (tie comparefn x) output = List.filter (tie comparefn x) input.

(** The sort of an engine, and what ECMA-262 asks of it: the result is a
    permutation of the array and, when the comparator is consistent for its
    elements, the stable sort of the array.  With a comparator that is not
    consistent the order is the engine's own. *)
Definition sort_fn : Type :=
  forall A : Type, (A -> A -> number) -> list A -> list A.

Definition conforming (sort : sort_fn) : Prop :=
  (forall (A : Type) (comparefn : A -> A -> number) (l : list A),
     Permutation l (sort A comparefn l)) /\
  (forall (A : Type) (comparefn : A -> A -> number) (l : list A),
     consistent comparefn l ->
     stable_sort_of comparefn l (sort A comparefn l)).

Definition insertion_sort : sort_fn := fun A => @Array_sort A.

(** The sort of V8 on an array of fewer than 64 elements (one run of its
    TimSort): the longest run at the start of the array, ascending or
    strictly descending and then reversed, is extended by binary insertion
    of the elements after it, one by one. *)
Fixpoint run_rest {A : Type} (comparefn : A -> A -> number)
  (isDescending : bool) (previousElement : A) (rest : list A) : nat :=
  match rest with
  | [] => O
  | currentElement :: rest' =>
      let order := SortCompare comparefn currentElement previousElement in
      if Bool.eqb (lt order (num 0)) isDescending
      then S (run_rest comparefn isDescending currentElement rest')
      else O
  end.

(** CountAndMakeRun: the length of the run and the array with the run in
    ascending order. *)
Definition CountAndMakeRun {A : Type} (comparefn : A -> A -> number)
  (workArray : list A) : nat * list A :=
  match workArray with
  | elementHigh :: elementLow :: rest =>
      let order := SortCompare comparefn elementLow elementHigh in
      let isDescending := lt order (num 0) in
      let runLength :=
        (2 + run_rest comparefn isDescending elementLow rest)%nat in
      (runLength,
       if isDescending
       then rev (firstn runLength workArray) ++ skipn runLength workArray
       else workArray)
  | _ => (length workArray, workArray)
  end.

(** The insertion point of [pivot] in the sorted part: the binary search
    between [left] and [right]. *)
Fixpoint insertion_point {A : Type} (fuel : nat)
  (comparefn : A -> A -> number) (pivot : A) (sorted : list A)
  (left right : nat) : nat :=
  match fuel with
  | O => left
  | S fuel' =>
      if (left <? right)%nat then
        let mid := (left + Nat.div2 (right - left))%nat in
        match nth_error sorted mid with
        | Some element =>
            if lt (SortCompare comparefn pivot element) (num 0)
            then insertion_point fuel' comparefn pivot sorted left mid
            else insertion_point fuel' comparefn pivot sorted (S mid) right
        | None => left
        end
      else left
  end.

(** BinaryInsertionSort: the elements after the run are inserted in the
    sorted part in turn. *)
Definition BinaryInsertionSort {A : Type} (comparefn : A -> A -> number)
  (sorted rest : list A) : list A :=
  fold_left
    (fun sorted pivot =>
       let left :=
         insertion_point (length sorted) comparefn pivot sorted
                         O (length sorted) in
       firstn left sorted ++ pivot :: skipn left sorted)
    rest sorted.

Definition V8_sort : sort_fn := fun A comparefn workArray =>
  let '(runLength, workArray) := CountAndMakeRun comparefn workArray in
  BinaryInsertionSort comparefn (firstn runLength workArray)
                      (skipn runLength workArray).

(** ** Array.from and Array.prototype.reduce *)

(** ToLength: the integer part of the value, clamped to [0 .. 2^53 - 1]. *)
Definition ToLength (x : number) : Z :=
  match x with
  | S754_finite false m e =>
      Z.min (if 0 <=? e then Z.pos m * 2 ^ e else Z.pos m / 2 ^ (- e))
            (2 ^ 53 - 1)
  | S754_infinity false => 2 ^ 53 - 1
  | _ => 0
  end.

(** What an engine does with arrays: it builds an array of up to
    [array_limit] elements; asked for a longer one, it throws a RangeError
    or, where [exhausted] says so, runs out of memory.  ECMA-262 knows the
    limit [2^32 - 1] only; the limit of an engine is lower. *)
Record memory : Type := {
  array_limit : N;
  exhausted : Z -> bool;
}.

(** [Array.from({ length }, mapfn)]: the array-like has no elements, so
    [mapfn] is called with [undefined] and the index [0 .. len - 1] (a
    Number).  An array of more than [2^32 - 1] elements is a RangeError on
    every engine; below that the engine decides.  [mapfn] here takes the
    index only. *)
Definition Array_from_length {A : Type} (engine : memory) (length : number)
  (mapfn : number -> A) : completion (list A) :=
  let len := ToLength length in
  if 2 ^ 32 - 1 <? len then Throw RangeError
  else if Z.of_N (array_limit engine) <? len then
    if exhausted engine len then Throw OutOfMemory else Throw RangeError
  else Normal (map (fun k => mapfn (num k)) (seqZ 0 len)).

(** [array.reduce(callbackfn, initialValue)]. *)
Definition Array_reduce {A B : Type} (callbackfn : B -> A -> B)
  (initialValue : B) (array : list A) : B :=
  fold_left callbackfn array initialValue.

(** ** Loops *)

(** [while (cond) body] on a state; [None] when [fuel] iterations were not
    enough to leave the loop. *)
Fixpoint while_loop {S : Type} (fuel : nat) (cond : S -> bool) (body : S -> S)
  (s : S) : option S :=
  match fuel with
  | O => None
  | Datatypes.S fuel' =>
      if cond s then while_loop fuel' cond body (body s) else Some s
  end.

End JS.

Import JS.

(** ** The wallet pages (WalletDemo.tsx) *)

Module WalletBalance.
Record t : Type := make {
  currency : string;
  amount : number;
  blockchain : string;
}.
End WalletBalance.

(** The element type of [balancesWithPriority]: a balance with its
    [priority], which the interface declares a number and which is whatever
    the lookup in the priority table returns. *)
Module PrioritizedBalance.
Record t : Type := make {
  currency : string;
  amount : number;
  blockchain : string;
  priority : value;
}.
End PrioritizedBalance.

Module FormattedWalletBalance.
Record t : Type := make {
  currency : string;
  amount : number;
  formatted : string;
  blockchain : string;
  usdValue : number;
  priority : value;
}.
End FormattedWalletBalance.

Definition mockBalances : list WalletBalance.t :=
  [ WalletBalance.make "OSMO" (decimal 1005 1) "Osmosis";
    WalletBalance.make "ETH" (decimal 23 1) "Ethereum";
    WalletBalance.make "ARB" (num 50) "Arbitrum";
    WalletBalance.make "ZIL" (num 1000) "Zilliqa";
    WalletBalance.make "NEO" (decimal 255 1) "Neo";
    WalletBalance.make "BTC" (decimal 1 1) "Bitcoin";
    WalletBalance.make "USDT" (num 0) "Ethereum";
    WalletBalance.make "DOGE" (SFopp (num 10)) "Dogecoin" ].

Definition mockPrices : gmap string number :=
  <["OSMO" := decimal 25 1]> (<["ETH" := num 3000]> (<["ARB" := decimal 12 1]>
  (<["ZIL" := decimal 2 2]> (<["NEO" := num 15]> (<["BTC" := num 45000]>
  (<["USDT" := num 1]> (<["DOGE" := decimal 8 2]> ∅))))))).

Module ProblematicWalletPage.

Definition getPriority (blockchain : string) : number :=
  if String.eqb blockchain "Osmosis" then num 100
  else if String.eqb blockchain "Ethereum" then num 50
  else if String.eqb blockchain "Arbitrum" then num 30
  else if String.eqb blockchain "Zilliqa" then num 20
  else if String.eqb blockchain "Neo" then num 20
  else num (-99).

(** The callback of [filter] in [sortedBalances]. *)
Definition keep (balance : WalletBalance.t) : bool :=
  let balancePriority := getPriority (WalletBalance.blockchain balance) in
  if gt balancePriority (num (-99)) then
    if le (WalletBalance.amount balance) (num 0) then true else false
  else false.

(** The comparator of [sort] in [sortedBalances]. *)
Definition comparator (lhs rhs : WalletBalance.t) : number :=
  let leftPriority := getPriority (WalletBalance.blockchain lhs) in
  let rightPriority := getPriority (WalletBalance.blockchain rhs) in
  if gt leftPriority rightPriority then num (-1)
  else if gt rightPriority leftPriority then num 1
  else num 0.

Definition sortedBalances (sort : sort_fn) (balances : list WalletBalance.t)
  : list WalletBalance.t :=
  sort _ comparator (List.filter keep balances).

End ProblematicWalletPage.

Module OptimizedWalletPage.

Definition BLOCKCHAIN_PRIORITIES : gmap string number :=
  <["Osmosis" := num 100]> (<["Ethereum" := num 50]>
  (<["Arbitrum" := num 30]> (<["Zilliqa" := num 20]>
  (<["Neo" := num 20]> ∅)))).

(** [BLOCKCHAIN_PRIORITIES[blockchain] ?? -99]: the entry of the table,
    else the member that the table inherits under that name, else [-99]. *)
Definition getPriority (blockchain : string) : value :=
  coalesce (Get BLOCKCHAIN_PRIORITIES blockchain) (Num (num (-99))).

Definition balancesWithPriority (balances : list WalletBalance.t)
  : list PrioritizedBalance.t :=
  map (fun balance =>
         PrioritizedBalance.make
           (WalletBalance.currency balance)
           (WalletBalance.amount balance)
           (WalletBalance.blockchain balance)
           (getPriority (WalletBalance.blockchain balance)))
      balances.

(** The comparator of [sort] in [sortedBalances]; the subtraction brings
    its operands to numbers. *)
Definition comparator (a b : PrioritizedBalance.t) : number :=
  if negb (strict_eq_value (PrioritizedBalance.priority a)
                           (PrioritizedBalance.priority b))
  then sub (ToNumber (PrioritizedBalance.priority b))
           (ToNumber (PrioritizedBalance.priority a))
  else num 0.

Definition sortedBalances (sort : sort_fn) (balances : list WalletBalance.t)
  : list PrioritizedBalance.t :=
  sort _ comparator
    (List.filter (fun balance => gt (PrioritizedBalance.amount balance) (num 0))
                 (balancesWithPriority balances)).

(** The callback of [map] in [formattedBalances]. *)
Definition format (prices : gmap string number) (balance : PrioritizedBalance.t)
  : completion FormattedWalletBalance.t :=
  let usdValue :=
    mul (ToNumber
           (coalesce (Get prices (PrioritizedBalance.currency balance))
                     (Num (num 0))))
        (PrioritizedBalance.amount balance) in
  formatted ← toFixed (PrioritizedBalance.amount balance) 2;
  mret (FormattedWalletBalance.make
          (PrioritizedBalance.currency balance)
          (PrioritizedBalance.amount balance)
          formatted
          (PrioritizedBalance.blockchain balance)
          usdValue
          (PrioritizedBalance.priority balance)).

Definition formattedBalances (sort : sort_fn)
  (balances : list WalletBalance.t) (prices : gmap string number)
  : completion (list FormattedWalletBalance.t) :=
  Array_map (format prices) (sortedBalances sort balances).

End OptimizedWalletPage.

(** ** The optimized page on amounts of any type *)

(** The interface [WalletBalance] declares [amount] a number, and nothing
    checks it when the page runs.  [Untyped] is the same code on records
    whose [amount] is any value: the filter brings it to a number,
    [toFixed] is called on it as it is. *)
Module Untyped.

Record balance : Type := make_balance {
  currency : string;
  amount : value;
  blockchain : string;
}.

Record prioritized : Type := make_prioritized {
  p_currency : string;
  p_amount : value;
  p_blockchain : string;
  p_priority : value;
}.

Record formatted : Type := make_formatted {
  f_currency : string;
  f_amount : value;
  f_formatted : string;
  f_blockchain : string;
  f_usdValue : number;
  f_priority : value;
}.

Definition balancesWithPriority (balances : list balance)
  : list prioritized :=
  map (fun balance =>
         make_prioritized
           (currency balance) (amount balance) (blockchain balance)
           (OptimizedWalletPage.getPriority (blockchain balance)))
      balances.

Definition comparator (a b : prioritized) : number :=
  if negb (strict_eq_value (p_priority a) (p_priority b))
  then sub (ToNumber (p_priority b)) (ToNumber (p_priority a))
  else num 0.

Definition sortedBalances (sort : sort_fn) (balances : list balance)
  : list prioritized :=
  sort _ comparator
    (List.filter (fun balance => gt (ToNumber (p_amount balance)) (num 0))
                 (balancesWithPriority balances)).

Definition format (prices : gmap string number) (balance : prioritized)
  : completion formatted :=
  let usdValue :=
    mul (ToNumber (coalesce (Get prices (p_currency balance)) (Num (num 0))))
        (ToNumber (p_amount balance)) in
  formatted ← call_toFixed (p_amount balance) 2;
  mret (make_formatted
          (p_currency balance) (p_amount balance) formatted
          (p_blockchain balance) usdValue (p_priority balance)).

Definition formattedBalances (sort : sort_fn) (balances : list balance)
  (prices : gmap string number) : completion (list formatted) :=
  Array_map (format prices) (sortedBalances sort balances).

End Untyped.

(** ** The three sums *)

Module SumToN.

(** The variables of the two loops. *)
Record vars : Type := make { sum : number; i : number }.

(** [for (let i = 1; i <= n; i++) { sum = sum + i; }] *)
Definition sum_to_n_a (fuel : nat) (n : number) : option number :=
  final ← while_loop fuel
    (fun v => le (i v) n)
    (fun v =>
       let v := make (add (sum v) (i v)) (i v) in
       make (sum v) (add (i v) (num 1)))
    (make (num 0) (num 1));
  Some (sum final).

(** [let i = 1; while (i <= n) { sum = sum + i; i++; }] *)
Definition sum_to_n_b (fuel : nat) (n : number) : option number :=
  final ← while_loop fuel
    (fun v => le (i v) n)
    (fun v => make (add (sum v) (i v)) (add (i v) (num 1)))
    (make (num 0) (num 1));
  Some (sum final).

(** [Array.from({ length: n }, (_, i) => i + 1)
       .reduce((total, num) => total + num, 0)] *)
Definition sum_to_n_c (engine : memory) (n : number) : completion number :=
  array ← Array_from_length engine n (fun i => add i (num 1));
  mret (Array_reduce (fun total num => add total num) (num 0) array).

End SumToN.

(** ** More of ECMAScript: division, Math.min, powers of two *)

Module JSMath.

Definition div (a b : number) : number := SFdiv prec emax a b.

(** [Math.min(a, b)]: NaN when an argument is NaN, [-0] below [+0]. *)
Definition Math_min (a b : number) : number :=
  if isNaN a || isNaN b then NaN
  else
    match a, b with
    | S754_zero false, S754_zero true => b
    | _, _ => if lt b a then b else a
    end.

(** [2 ** k] for [k] a count: the power of two, which is a binary64 value
    up to [2^1023] and rounds to Infinity from [2^1024] on.  ECMA-262
    leaves the precision of [**] to the engine; for a power of two that is
    a binary64 value the engines return that value. *)
Definition pow2 (k : nat) : number := num (2 ^ Z.of_nat k).

(** [array.map((element, index) => ...)] with a callback that may throw. *)
Fixpoint Array_map_from {A B : Type} (f : A -> nat -> completion B)
  (index : nat) (l : list A) : completion (list B) :=
  match l with
  | [] => mret []
  | x :: t =>
      y ← f x index; r ← Array_map_from f (S index) t; mret (y :: r)
  end.

End JSMath.

Import JSMath.

(** ** The rows of the two wallet pages (WalletDemo.tsx) *)

(** A row is the [div] that the page makes for a balance; the records
    hold its key and the values that its text is made of.  What React does
    with the rows when it renders them is not part of this. *)
Module ProblematicRows.
Import ProblematicWalletPage.

Record Row : Type := make {
  key : nat;
  currency : string;
  amount : string;
  blockchain : string;
  usdValue : string;
}.

(** The callback of [map] in [rows]:
    [prices[balance.currency] * balance.amount], with no fallback for a
    currency without price: [undefined] times a number is NaN, and so is
    an inherited member times a number. *)
Definition row (prices : gmap string number) (balance : WalletBalance.t)
  (index : nat) : completion Row :=
  let usdValue :=
    mul (ToNumber (Get prices (WalletBalance.currency balance)))
        (WalletBalance.amount balance) in
  amount ← toFixed (WalletBalance.amount balance) 2;
  usd ← toFixed usdValue 2;
  mret (make index (WalletBalance.currency balance) amount
             (WalletBalance.blockchain balance) usd).

Definition rows (sort : sort_fn) (balances : list WalletBalance.t)
  (prices : gmap string number) : completion (list Row) :=
  Array_map_from (row prices) 0 (sortedBalances sort balances).

End ProblematicRows.

Module OptimizedRows.
Import OptimizedWalletPage.

Record Row : Type := make {
  key : string;
  currency : string;
  formatted : string;
  blockchain : string;
  usdValue : string;
  priority : value;
}.

(** The callback of [map] in [rows]; the key is
    [`${balance.blockchain}-${balance.currency}`]. *)
Definition row (balance : FormattedWalletBalance.t) : completion Row :=
  usd ← toFixed (FormattedWalletBalance.usdValue balance) 2;
  mret (make
          (String.append (FormattedWalletBalance.blockchain balance)
             (String.append "-" (FormattedWalletBalance.currency balance)))
          (FormattedWalletBalance.currency balance)
          (FormattedWalletBalance.formatted balance)
          (FormattedWalletBalance.blockchain balance)
          usd
          (FormattedWalletBalance.priority balance)).

Definition rows (sort : sort_fn) (balances : list WalletBalance.t)
  (prices : gmap string number) : completion (list Row) :=
  formatted ← formattedBalances sort balances prices;
  Array_map row formatted.

End OptimizedRows.

(** ** The currency swap form (problem 2) *)

Module CurrencySwap.

(** An element of the price list that the form fetches. *)
Record PriceItem : Type := {
  currency : string;
  price : number;
}.

(** [data.forEach(item => { priceMap[item.currency] = item.price })] on an
    empty [priceMap]: the own entries of the object that results.  An
    assignment to the name [__proto__] does not make an entry: it goes to
    the setter that the object inherits, which ignores a number. *)
Definition priceMap (data : list PriceItem) : gmap string number :=
  fold_left (fun priceMap item =>
               if String.eqb (currency item) "__proto__" then priceMap
               else <[currency item := price item]> priceMap)
            data ∅.

Record Token : Type := {
  symbol : string;
  name : string;
  icon : string;
}.

Definition TOKENS : list Token :=
  [ Build_Token "SWTH" "Switcheo" "https://raw.githubusercontent.com/Switcheo/token-icons/main/tokens/SWTH.svg";
    Build_Token "ETH" "Ethereum" "https://raw.githubusercontent.com/Switcheo/token-icons/main/tokens/ETH.svg";
    Build_Token "BTC" "Bitcoin" "https://raw.githubusercontent.com/Switcheo/token-icons/main/tokens/BTC.svg";
    Build_Token "USDC" "USD Coin" "https://raw.githubusercontent.com/Switcheo/token-icons/main/tokens/USDC.svg";
    Build_Token "USDT" "Tether" "https://raw.githubusercontent.com/Switcheo/token-icons/main/tokens/USDT.svg";
    Build_Token "SOL" "Solana" "https://raw.githubusercontent.com/Switcheo/token-icons/main/tokens/SOL.svg";
    Build_Token "ADA" "Cardano" "https://raw.githubusercontent.com/Switcheo/token-icons/main/tokens/ADA.svg";
    Build_Token "DOT" "Polkadot" "https://raw.githubusercontent.com/Switcheo/token-icons/main/tokens/DOT.svg";
    Build_Token "LINK" "Chainlink" "https://raw.githubusercontent.com/Switcheo/token-icons/main/tokens/LINK.svg";
    Build_Token "UNI" "Uniswap" "https://raw.githubusercontent.com/Switcheo/token-icons/main/tokens/UNI.svg" ].

(** [prices[token.symbol] || 0]: the price of the token when [prices] has
    one that is neither zero nor NaN, else the member that [prices]
    inherits under the name of the token, else [0]; the division brings its
    operands to numbers. *)
Definition getExchangeRate (prices : gmap string number)
  (selectedFromToken selectedToToken : Token) : number :=
  let fromPrice :=
    or_else (Get prices (symbol selectedFromToken)) (Num (num 0)) in
  let toPrice :=
    or_else (Get prices (symbol selectedToToken)) (Num (num 0)) in
  if strict_eq_value fromPrice (Num (num 0))
     || strict_eq_value toPrice (Num (num 0))
  then num 0
  else div (ToNumber toPrice) (ToNumber fromPrice).

(** [Math.min(1000 * 2 ** attemptIndex, 30000)]; [attemptIndex] counts the
    attempts that failed so far. *)
Definition retryDelay (attemptIndex : nat) : number :=
  Math_min (mul (num 1000) (pow2 attemptIndex)) (num 30000).

End CurrencySwap.

(** ** Definitions used in the statements *)

(** The priorities that [OptimizedWalletPage.getPriority] returns. *)
Definition table_priorities : list number :=
  [num 100; num 50; num 30; num 20; num (-99)].

(** A name that [Object.prototype] has no property of. *)
Definition ordinary (name : string) : Prop := Object_prototype name = None.

(** A record whose priority is one of the numbers of the table. *)
Definition resolved (balance : PrioritizedBalance.t) : Prop :=
  exists p, PrioritizedBalance.priority balance = Num p /\
            In p table_priorities.

(** The balances that the optimized page shows have ordinary chain
    names. *)
Definition ordinary_chains (balances : list WalletBalance.t) : Prop :=
  Forall (fun b => gt (WalletBalance.amount b) (num 0) = true ->
                   ordinary (WalletBalance.blockchain b))
         balances.




(** The record that the callback of [formattedBalances] returns. *)
Definition formatted_of (prices : gmap string number)
  (balance : PrioritizedBalance.t) : FormattedWalletBalance.t :=
  match OptimizedWalletPage.format prices balance with
  | Normal f => f
  | Throw _ =>
      FormattedWalletBalance.make "" NaN "" "" NaN Undefined
  end.

(** The input record that an output record was made from. *)
Definition source (f : FormattedWalletBalance.t) : WalletBalance.t :=
  WalletBalance.make (FormattedWalletBalance.currency f)
                     (FormattedWalletBalance.amount f)
                     (FormattedWalletBalance.blockchain f).

(** The sum [1 + 2 + ... + k] added up in binary64 from left to right, and
    the sum of a list of integers. *)
Definition sum_in_order (k : Z) : number :=
  fold_left add (map num (seqZ 1 k)) (num 0).

Definition Zsum (l : list Z) : Z := foldr Z.add 0 l.

(** The element of [balancesWithPriority] for a balance, and the balance
    that an element was made from. *)
Definition with_priority (balance : WalletBalance.t) : PrioritizedBalance.t :=
  PrioritizedBalance.make
    (WalletBalance.currency balance)
    (WalletBalance.amount balance)
    (WalletBalance.blockchain balance)
    (OptimizedWalletPage.getPriority (WalletBalance.blockchain balance)).

Definition without_priority (balance : PrioritizedBalance.t)
  : WalletBalance.t :=
  WalletBalance.make (PrioritizedBalance.currency balance)
                     (PrioritizedBalance.amount balance)
                     (PrioritizedBalance.blockchain balance).

(** The sign of a number that is not NaN. *)
Definition has_sign (s : bool) (x : number) : Prop :=
  match x with
  | S754_nan => False
  | S754_zero t | S754_infinity t | S754_finite t _ _ => t = s
  end.

(** A string has no occurrence of a character. *)
Fixpoint lacks (c : ascii) (s : string) : bool :=
  match s with
  | EmptyString => true
  | String a rest => negb (Ascii.eqb a c) && lacks c rest
  end.

(** A token that the swap form has no price for: [prices] has no entry
    for its symbol, which is an ordinary name, or the entry is a zero or
    NaN. *)
Definition no_price (prices : gmap string number) (token : CurrencySwap.Token)
  : Prop :=
  match prices !! CurrencySwap.symbol token with
  | Some p => ToBoolean p = false
  | None => ordinary (CurrencySwap.symbol token)
  end.

(** A record of [balancesWithPriority] carries the priority of its chain. *)
Definition carries_priority (b : PrioritizedBalance.t) : Prop :=
  PrioritizedBalance.priority b
  = OptimizedWalletPage.getPriority (PrioritizedBalance.blockchain b).





(** An engine for the examples: arrays of up to [2^32 - 1] elements, as
    ECMA-262 has them. *)
Definition unlimited : memory :=
  {| array_limit := 4294967295; exhausted := fun _ => false |}.

(** What the callback of [rows] returns on the optimized page. *)
Definition row_for (f : FormattedWalletBalance.t) (r : OptimizedRows.Row)
  : Prop :=
  exists usd,
    toFixed (FormattedWalletBalance.usdValue f) 2 = Normal usd /\
    r = OptimizedRows.make
          (String.append (FormattedWalletBalance.blockchain f)
             (String.append "-" (FormattedWalletBalance.currency f)))
          (FormattedWalletBalance.currency f)
          (FormattedWalletBalance.formatted f)
          (FormattedWalletBalance.blockchain f)
          usd
          (FormattedWalletBalance.priority f).

(** * Facts *)

(** ** Numbers *)

Section NumberFacts.

Lemma gt_zero_not_le (x : number) :
  gt x (num 0) = true -> le x (num 0) = false.
Proof. destruct x as [s|s| |s m e]; try destruct s; cbv; congruence. Qed.

Lemma le_zero_not_gt (x : number) :
  le x (num 0) = true -> gt x (num 0) = false.
Proof. destruct x as [s|s| |s m e]; try destruct s; cbv; congruence. Qed.

Lemma gt_zero_not_NaN (x : number) :
  gt x (num 0) = true -> isNaN x = false.
Proof. destruct x; cbv; congruence. Qed.

Lemma strict_eq_zero_not_gt (v : number) :
  strict_eq v (num 0) = true -> gt v (num 0) = false.
Proof. destruct v as [s|s| |s m e]; try destruct s; cbv; congruence. Qed.




End NumberFacts.

(** ** Binary64 values *)

Section Binary64Facts.

Lemma digits2_pos_size (m : positive) : digits2_pos m = Pos.size m.
Proof. induction m; simpl; congruence. Qed.

Lemma digits2_pos_gt (m : positive) : Z.pos m < 2 ^ Z.pos (digits2_pos m).
Proof.
  rewrite digits2_pos_size.
  pose proof (Pos.size_gt m) as H.
  apply Pos2Z.pos_lt_pos in H. now rewrite Pos2Z.inj_pow in H.
Qed.



(** *** Integers below [2^53] *)

Lemma digits2_pos_le (m : positive) : 2 ^ (Z.pos (digits2_pos m) - 1) <= Z.pos m.
Proof.
  rewrite digits2_pos_size.
  pose proof (Pos.size_le m) as H.
  apply Pos2Z.pos_le_pos in H. rewrite Pos2Z.inj_pow in H.
  replace (Z.pos (Pos.size m)) with (Z.pos (Pos.size m) - 1 + 1) in H by lia.
  rewrite Z.pow_add_r in H by lia.
  change (2 ^ 1) with 2 in H. lia.
Qed.

Lemma digits2_pos_small (z : positive) :
  Z.pos z < 2 ^ 53 -> Z.pos (digits2_pos z) <= 53.
Proof.
  intros Hz. pose proof (digits2_pos_le z) as Hle.
  destruct (Z.le_gt_cases (Z.pos (digits2_pos z)) 53) as [H|H]; [exact H|].
  assert (2 ^ 53 <= 2 ^ (Z.pos (digits2_pos z) - 1))
    by (apply Z.pow_le_mono_r; lia).
  lia.
Qed.

(** The number of bits is the only [d] with [2^(d-1) <= m < 2^d]. *)
Lemma digits2_pos_unique (m : positive) (d : Z) :
  2 ^ (d - 1) <= Z.pos m < 2 ^ d -> Z.pos (digits2_pos m) = d.
Proof.
  intros [Hlo Hhi].
  pose proof (digits2_pos_gt m) as Hgt.
  pose proof (digits2_pos_le m) as Hle.
  destruct (Z.lt_trichotomy (Z.pos (digits2_pos m)) d) as [H|[H|H]];
    [|exact H|].
  - assert (2 ^ Z.pos (digits2_pos m) <= 2 ^ (d - 1))
      by (apply Z.pow_le_mono_r; lia). lia.
  - assert (0 <= d \/ d < 0) as [Hd|Hd] by lia.
    + assert (2 ^ d <= 2 ^ (Z.pos (digits2_pos m) - 1))
        by (apply Z.pow_le_mono_r; lia). lia.
    + rewrite (Z.pow_neg_r 2 d) in Hhi by lia. lia.
Qed.

Lemma digits2_pos_shift (M z : positive) (j : Z) :
  0 <= j -> Z.pos M = Z.pos z * 2 ^ j ->
  Z.pos (digits2_pos M) = Z.pos (digits2_pos z) + j.
Proof.
  intros Hj HM. apply digits2_pos_unique. rewrite HM.
  pose proof (digits2_pos_gt z) as Hgt.
  pose proof (digits2_pos_le z) as Hle.
  assert (0 < 2 ^ j) by (apply Z.pow_pos_nonneg; lia).
  replace (Z.pos (digits2_pos z) + j - 1) with (Z.pos (digits2_pos z) - 1 + j)
    by lia.
  rewrite !Z.pow_add_r by lia. nia.
Qed.

Lemma iter_xO_value (m k : positive) :
  Z.pos (Pos.iter xO m k) = Z.pos m * 2 ^ Z.pos k.
Proof.
  induction k as [|k IH] using Pos.peano_ind.
  - simpl. lia.
  - rewrite Pos.iter_succ, Pos2Z.inj_xO, IH, Pos2Z.inj_succ, Z.pow_succ_r by lia.
    lia.
Qed.

Lemma iter_pos_iter {A : Type} (f : A -> A) (k : positive) (x : A) :
  SpecFloat.iter_pos f k x = Pos.iter f x k.
Proof.
  revert x. induction k as [k IH|k IH|]; intros x; simpl.
  - rewrite !IH. now rewrite !Pos.iter_swap.
  - now rewrite !IH.
  - reflexivity.
Qed.

(** Shifting out the zero bits that were shifted in. *)
Lemma shr_1_iter_xO (m k : positive) :
  SpecFloat.iter_pos shr_1 k
    (Build_shr_record (Z.pos (Pos.iter xO m k)) false false)
  = Build_shr_record (Z.pos m) false false.
Proof.
  rewrite iter_pos_iter. revert m.
  induction k as [|k IH] using Pos.peano_ind; intros m.
  - reflexivity.
  - rewrite Pos.iter_succ.
    rewrite (Pos.iter_succ_r k positive xO m), IH. reflexivity.
Qed.

Lemma iter_xO_eq (M m k : positive) :
  Z.pos M = Z.pos m * 2 ^ Z.pos k -> M = Pos.iter xO m k.
Proof.
  intros H. rewrite <- iter_xO_value in H. now injection H.
Qed.

Lemma fexp_small (d : Z) : 0 < d -> fexp prec emax d = d - 53.
Proof. unfold fexp, emin, prec, emax. lia. Qed.

(** Rounding a mantissa that is canonical changes nothing. *)
Lemma binary_round_aux_canonical (s : bool) (m : positive) (e : Z) :
  Z.pos (digits2_pos m) = 53 -> -1074 <= e <= 971 ->
  binary_round_aux prec emax s (Z.pos m) e loc_Exact = S754_finite s m e.
Proof.
  intros Hd He. unfold binary_round_aux, shr_fexp, Zdigits2.
  rewrite Hd.
  replace (fexp prec emax (53 + e) - e) with 0
    by (unfold fexp, emin, prec, emax; lia).
  cbn [shr shr_record_of_loc shr_m loc_of_shr_record round_nearest_even].
  rewrite Hd.
  replace (fexp prec emax (53 + e) - e) with 0
    by (unfold fexp, emin, prec, emax; lia).
  cbn [shr shr_m].
  destruct (Z.leb_spec e (emax - prec)) as [_|H]; [reflexivity|].
  unfold emax, prec in H. lia.
Qed.

(** Rounding [M * 2^e], an integer [z] below [2^53], gives the canonical
    representation of [z]. *)
Lemma binary_round_exact (M z m : positive) (e : Z) :
  e <= 0 ->
  Z.pos M = Z.pos z * 2 ^ (- e) ->
  Z.pos z < 2 ^ 53 ->
  Z.pos m = Z.pos z * 2 ^ (53 - Z.pos (digits2_pos z)) ->
  binary_round prec emax false M e
  = S754_finite false m (Z.pos (digits2_pos z) - 53).
Proof.
  intros He HM Hz Hm.
  pose proof (digits2_pos_small z Hz) as Hdz.
  assert (HdM : Z.pos (digits2_pos M) = Z.pos (digits2_pos z) - e).
  { rewrite (digits2_pos_shift M z (- e)); lia. }
  assert (Hdm : Z.pos (digits2_pos m) = 53).
  { rewrite (digits2_pos_shift m z (53 - Z.pos (digits2_pos z))); lia. }
  unfold binary_round. rewrite HdM.
  replace (Z.pos (digits2_pos z) - e + e) with (Z.pos (digits2_pos z)) by lia.
  rewrite fexp_small by lia.
  unfold shl_align.
  destruct (Z.pos (digits2_pos z) - 53 - e) as [|k|k] eqn:Hk.
  - (* the mantissa is canonical *)
    assert (M = m) as ->.
    { assert (Z.pos M = Z.pos m) as H; [|now injection H].
      rewrite HM, Hm. f_equal. f_equal. lia. }
    replace e with (Z.pos (digits2_pos z) - 53) by lia.
    apply binary_round_aux_canonical; [exact Hdm|lia].
  - (* bits to shift out, all zero *)
    assert (M = Pos.iter xO m k) as ->.
    { apply iter_xO_eq. rewrite HM, Hm, <- Z.mul_assoc, <- Z.pow_add_r by lia.
      f_equal. f_equal. lia. }
    unfold binary_round_aux, shr_fexp, Zdigits2.
    rewrite HdM.
    replace (Z.pos (digits2_pos z) - e + e) with (Z.pos (digits2_pos z)) by lia.
    rewrite fexp_small by lia. rewrite Hk.
    cbn [shr shr_record_of_loc]. rewrite shr_1_iter_xO.
    cbn [shr_m loc_of_shr_record round_nearest_even].
    rewrite Hdm.
    replace (e + Z.pos k) with (Z.pos (digits2_pos z) - 53) by lia.
    replace (fexp prec emax (53 + (Z.pos (digits2_pos z) - 53))
             - (Z.pos (digits2_pos z) - 53)) with 0
      by (unfold fexp, emin, prec, emax; lia).
    cbn [shr shr_m].
    destruct (Z.leb_spec (Z.pos (digits2_pos z) - 53) (emax - prec)) as [_|H];
      [reflexivity|]. unfold emax, prec in H. lia.
  - (* bits to shift in *)
    assert (m = Pos.iter xO M k) as ->.
    { apply iter_xO_eq. rewrite HM, Hm, <- Z.mul_assoc, <- Z.pow_add_r by lia.
      f_equal. f_equal. lia. }
    apply binary_round_aux_canonical; [exact Hdm|lia].
Qed.

(** The canonical representation of a positive integer below [2^53]. *)
Lemma num_pos (z : positive) :
  Z.pos z < 2 ^ 53 ->
  exists m, Z.pos m = Z.pos z * 2 ^ (53 - Z.pos (digits2_pos z)) /\
            num (Z.pos z) = S754_finite false m (Z.pos (digits2_pos z) - 53).
Proof.
  intros Hz.
  pose proof (digits2_pos_small z Hz) as Hdz.
  assert (Hpos : 0 < Z.pos z * 2 ^ (53 - Z.pos (digits2_pos z))).
  { apply Z.mul_pos_pos; [lia|]. apply Z.pow_pos_nonneg; lia. }
  destruct (Z.pos z * 2 ^ (53 - Z.pos (digits2_pos z))) as [|m|m] eqn:Hm;
    try lia.
  exists m. split; [reflexivity|].
  unfold num, binary_normalize.
  apply binary_round_exact; lia.
Qed.

Lemma num_pos_round (M z : positive) (e : Z) :
  e <= 0 -> Z.pos M = Z.pos z * 2 ^ (- e) -> Z.pos z < 2 ^ 53 ->
  binary_round prec emax false M e = num (Z.pos z).
Proof.
  intros He HM Hz. destruct (num_pos z Hz) as (m & Hm & ->).
  now apply binary_round_exact.
Qed.

Lemma shl_align_value (m : positive) (e e' : Z) :
  e' <= e -> Z.pos (fst (shl_align m e e')) = Z.pos m * 2 ^ (e - e').
Proof.
  intros He. unfold shl_align.
  destruct (e' - e) as [|k|k] eqn:Hk; cbn [fst]; try lia.
  - replace (e - e') with 0 by lia. lia.
  - rewrite iter_xO_value. f_equal. f_equal. lia.
Qed.

(** Addition of small non-negative integers is exact. *)
Lemma add_num (a b : Z) :
  0 <= a -> 0 <= b -> a + b < 2 ^ 53 ->
  add (num a) (num b) = num (a + b).
Proof.
  intros Ha Hb Hab.
  destruct a as [|a|a]; [|clear Ha|lia].
  { destruct b as [|b|b]; [reflexivity| |lia].
    destruct (num_pos b) as (m & _ & Hn); [lia|].
    change (0 + Z.pos b) with (Z.pos b). rewrite Hn. reflexivity. }
  destruct b as [|b|b]; [|clear Hb|lia].
  { destruct (num_pos a) as (m & _ & Hn); [lia|].
    rewrite Z.add_0_r, Hn. reflexivity. }
  destruct (num_pos a) as (ma & Hma & Hna); [lia|].
  destruct (num_pos b) as (mb & Hmb & Hnb); [lia|].
  rewrite Hna, Hnb. unfold add, SFadd. cbn [cond_Zopp].
  set (ea := Z.pos (digits2_pos a) - 53) in *.
  set (eb := Z.pos (digits2_pos b) - 53) in *.
  assert (Hea : ea <= 0)
    by (unfold ea; pose proof (digits2_pos_small a); lia).
  assert (Heb : eb <= 0)
    by (unfold eb; pose proof (digits2_pos_small b); lia).
  rewrite !shl_align_value by lia.
  set (ez := Z.min ea eb).
  assert (Hsum : Z.pos ma * 2 ^ (ea - ez) + Z.pos mb * 2 ^ (eb - ez)
                 = Z.pos (a + b) * 2 ^ (- ez)).
  { rewrite Hma, Hmb.
    replace (53 - Z.pos (digits2_pos a)) with (- ea) by (unfold ea; lia).
    replace (53 - Z.pos (digits2_pos b)) with (- eb) by (unfold eb; lia).
    rewrite <- !Z.mul_assoc, <- !Z.pow_add_r by lia.
    replace (- ea + (ea - ez)) with (- ez) by lia.
    replace (- eb + (eb - ez)) with (- ez) by lia.
    rewrite Pos2Z.inj_add. lia. }
  rewrite Hsum.
  assert (Hpos : 0 < Z.pos (a + b) * 2 ^ (- ez)).
  { apply Z.mul_pos_pos; [lia|]. apply Z.pow_pos_nonneg; lia. }
  destruct (Z.pos (a + b) * 2 ^ (- ez)) as [|M|M] eqn:HM; try lia.
  unfold binary_normalize.
  change (Z.pos a + Z.pos b) with (Z.pos (a + b)).
  apply num_pos_round; [lia|now rewrite HM|].
  rewrite Pos2Z.inj_add. exact Hab.
Qed.

(** Comparison of small non-negative integers is exact. *)
Lemma le_num (a b : Z) :
  0 <= a < 2 ^ 53 -> 0 <= b < 2 ^ 53 -> le (num a) (num b) = (a <=? b).
Proof.
  intros [Ha Ha'] [Hb Hb'].
  destruct a as [|a|a]; [|clear Ha|lia].
  { destruct b as [|b|b]; [reflexivity| |lia].
    destruct (num_pos b) as (m & _ & ->); [lia|]. reflexivity. }
  destruct b as [|b|b]; [|clear Hb|lia].
  { destruct (num_pos a) as (m & _ & ->); [lia|]. reflexivity. }
  destruct (num_pos a Ha') as (ma & Hma & ->).
  destruct (num_pos b Hb') as (mb & Hmb & ->).
  unfold le, SFleb, SFcompare.
  pose proof (digits2_pos_gt a) as Hga. pose proof (digits2_pos_le a) as Hla.
  pose proof (digits2_pos_gt b) as Hgb. pose proof (digits2_pos_le b) as Hlb.
  destruct (Z.compare_spec (Z.pos (digits2_pos a) - 53)
                           (Z.pos (digits2_pos b) - 53)) as [He|He|He].
  - rewrite Pos.compare_cont_spec. cbn [Pos.switch_Eq].
    assert (Hd : Z.pos (digits2_pos a) = Z.pos (digits2_pos b)) by lia.
    rewrite Hd in Hma.
    assert (0 < 2 ^ (53 - Z.pos (digits2_pos b)))
      by (apply Z.pow_pos_nonneg; [lia|];
          pose proof (digits2_pos_small b Hb'); lia).
    destruct (Pos.compare_spec ma mb) as [Hc|Hc|Hc];
      destruct (Z.leb_spec (Z.pos a) (Z.pos b)) as [Hab|Hab];
      try reflexivity; exfalso.
    + subst mb. nia.
    + apply Pos2Z.pos_lt_pos in Hc. nia.
    + apply Pos2Z.pos_lt_pos in Hc. nia.
  - assert (2 ^ Z.pos (digits2_pos a) <= 2 ^ (Z.pos (digits2_pos b) - 1))
      by (apply Z.pow_le_mono_r; lia).
    destruct (Z.leb_spec (Z.pos a) (Z.pos b)); [reflexivity|lia].
  - assert (2 ^ Z.pos (digits2_pos b) <= 2 ^ (Z.pos (digits2_pos a) - 1))
      by (apply Z.pow_le_mono_r; lia).
    destruct (Z.leb_spec (Z.pos a) (Z.pos b)); [lia|reflexivity].
Qed.

Lemma ToLength_num (k : Z) : 0 <= k < 2 ^ 53 -> ToLength (num k) = k.
Proof.
  intros [H0 Hk]. destruct k as [|k|k]; [reflexivity| |lia].
  destruct (num_pos k Hk) as (m & Hm & ->). unfold ToLength.
  pose proof (digits2_pos_small k Hk) as Hd.
  destruct (Z.leb_spec 0 (Z.pos (digits2_pos k) - 53)) as [He|He].
  - replace (53 - Z.pos (digits2_pos k)) with 0 in Hm by lia.
    replace (Z.pos (digits2_pos k) - 53) with 0 by lia.
    rewrite Hm. simpl (2 ^ 0). lia.
  - replace (- (Z.pos (digits2_pos k) - 53)) with (53 - Z.pos (digits2_pos k))
      by lia.
    rewrite Hm, Z.div_mul by (apply Z.pow_nonzero; lia). lia.
Qed.

End Binary64Facts.

(** ** Number.prototype.toFixed *)

Section ToFixedFacts.








End ToFixedFacts.

(** ** Array.prototype.map *)

Lemma Array_map_Normal {A B : Type} (f : A -> completion B) (g : A -> B)
  (l : list A) :
  (forall x, In x l -> f x = Normal (g x)) ->
  Array_map f l = Normal (map g l).
Proof.
  induction l as [|x t IH]; intros Hf; simpl; [reflexivity|].
  rewrite (Hf x) by now left.
  rewrite IH by (intros y Hy; apply Hf; now right).
  reflexivity.
Qed.

(** ** Array.prototype.sort *)

Section SortFacts.

Context {A : Type} (comparefn : A -> A -> number).

Local Abbreviation after := (JS.after comparefn).
Local Abbreviation tie := (JS.tie comparefn).

Lemma sort_insert_In (x y : A) (l : list A) :
  In y (sort_insert comparefn x l) <-> y = x \/ In y l.
Proof.
  induction l as [|z t IH]; simpl.
  - intuition.
  - destruct (gt _ _); simpl; rewrite ?IH; intuition.
Qed.

Lemma Array_sort_In (y : A) (l : list A) :
  In y (Array_sort comparefn l) <-> In y l.
Proof.
  induction l as [|x t IH]; simpl; [reflexivity|].
  rewrite sort_insert_In, IH. intuition.
Qed.

Lemma Array_sort_Forall (P : A -> Prop) (l : list A) :
  Forall P (Array_sort comparefn l) <-> Forall P l.
Proof.
  rewrite !List.Forall_forall.
  split; intros H x Hx; apply H; now apply Array_sort_In.
Qed.

Lemma Array_sort_length (l : list A) :
  length (Array_sort comparefn l) = length l.
Proof.
  induction l as [|x t IH]; simpl; [reflexivity|].
  rewrite <- IH. generalize (Array_sort comparefn t). intros s.
  induction s as [|z u IHu]; simpl; [reflexivity|].
  destruct (gt _ _); simpl; congruence.
Qed.

(** An element passes another one only when it is strictly after it, so a
    class of elements no two of which are strictly ordered keeps its
    order. *)
Lemma sort_insert_filter (P : A -> bool) (x : A) (l : list A) :
  (forall y, In y l -> P x = true -> P y = true -> after x y = false) ->
  List.filter P (sort_insert comparefn x l) = List.filter P (x :: l).
Proof.
  induction l as [|y t IH]; intros Hxy; [reflexivity|].
  cbn [sort_insert].
  change (gt (SortCompare comparefn x y) (num 0)) with (after x y).
  destruct (after x y) eqn:Hafter; [|reflexivity].
  cbn [List.filter]. rewrite IH by (intros z Hz; apply Hxy; now right).
  cbn [List.filter]. destruct (P x) eqn:Px, (P y) eqn:Py; try reflexivity.
  rewrite (Hxy y) in Hafter by (auto; now left). discriminate.
Qed.

Lemma Array_sort_filter (P : A -> bool) (l : list A) :
  (forall x y, In x l -> In y l ->
     P x = true -> P y = true -> after x y = false) ->
  List.filter P (Array_sort comparefn l) = List.filter P l.
Proof.
  induction l as [|x t IH]; intros Hxy; [reflexivity|].
  simpl Array_sort. rewrite sort_insert_filter.
  - simpl. rewrite IH; [reflexivity|].
    intros a b Ha Hb. apply Hxy; now right.
  - intros y Hy. apply (proj1 (Array_sort_In y t)) in Hy.
    apply Hxy; [left; reflexivity|right; exact Hy].
Qed.

(** The elements on which the comparator is an order. *)
Variable D : A -> Prop.

Hypothesis after_asym : forall x y,
  D x -> D y -> after x y = true -> after y x = false.
Hypothesis after_trans : forall x y z,
  D x -> D y -> D z ->
  after x y = false -> after y z = false -> after x z = false.

Lemma sort_insert_order (x : A) (l : list A) :
  D x -> Forall D l ->
  StronglySorted (fun a b => after a b = false) l ->
  StronglySorted (fun a b => after a b = false) (sort_insert comparefn x l).
Proof.
  intros Dx Dl Hs. induction Hs as [|y t Hs IH Hy]; cbn [sort_insert].
  - repeat constructor.
  - apply Forall_cons_iff in Dl as [Dy Dt].
    change (gt (SortCompare comparefn x y) (num 0)) with (after x y).
    destruct (after x y) eqn:Hxy.
    + constructor; [now apply IH|].
      apply List.Forall_forall. intros z Hz.
      apply sort_insert_In in Hz as [->|Hz].
      * now apply after_asym.
      * now apply (proj1 (List.Forall_forall _ _) Hy).
    + constructor; [now constructor|].
      constructor; [exact Hxy|].
      apply List.Forall_forall. intros z Hz.
      apply (after_trans x y z); auto.
      * now apply (proj1 (List.Forall_forall _ _) Dt).
      * now apply (proj1 (List.Forall_forall _ _) Hy).
Qed.

Lemma Array_sort_order (l : list A) :
  Forall D l ->
  StronglySorted (fun a b => after a b = false) (Array_sort comparefn l).
Proof.
  induction l as [|x t IH]; intros Dl; simpl; [constructor|].
  apply Forall_cons_iff in Dl as [Dx Dt].
  apply sort_insert_order; auto.
  now apply Array_sort_Forall.
Qed.

Lemma sort_insert_Permutation (x : A) (l : list A) :
  Permutation (x :: l) (sort_insert comparefn x l).
Proof.
  induction l as [|y t IH]; cbn [sort_insert]; [reflexivity|].
  destruct (gt _ _); [|reflexivity].
  rewrite perm_swap. now apply perm_skip.
Qed.

Lemma Array_sort_Permutation (l : list A) :
  Permutation l (Array_sort comparefn l).
Proof.
  induction l as [|x t IH]; simpl; [reflexivity|].
  rewrite <- sort_insert_Permutation. now apply perm_skip.
Qed.

Lemma tie_not_after (x y : A) : tie x y = true -> after x y = false.
Proof. apply strict_eq_zero_not_gt. Qed.

Hypothesis tie_refl : forall x, D x -> tie x x = true.
Hypothesis tie_antisym : forall x y,
  D x -> D y -> after x y = false -> after y x = false -> tie x y = true.
Hypothesis tie_class : forall x y z,
  D x -> D y -> D z -> tie x y = true -> tie x z = true -> after y z = false.

(** The insertion sort is one of the sorts that ECMA-262 allows. *)
Lemma Array_sort_stable (l : list A) :
  Forall D l -> stable_sort_of comparefn l (Array_sort comparefn l).
Proof.
  intros Dl. split; [apply Array_sort_Permutation|].
  split; [now apply Array_sort_order|].
  intros x Hx. apply Array_sort_filter.
  intros y z Hy Hz. rewrite List.Forall_forall in Dl.
  apply (tie_class x); auto.
Qed.

(** Two lists in sort order whose ties agree are the same list. *)
Lemma sort_order_unique (l1 l2 : list A) :
  Forall D l1 -> Forall D l2 ->
  sort_order comparefn l1 -> sort_order comparefn l2 ->
  (forall x, In x l1 \/ In x l2 ->
     List.filter (tie x) l1 = List.filter (tie x) l2) ->
  l1 = l2.
Proof.
  revert l2. induction l1 as [|x t1 IH]; intros [|y t2] D1 D2 S1 S2 Hties.
  - reflexivity.
  - apply Forall_cons_iff in D2 as [Dy _].
    specialize (Hties y (or_intror (or_introl eq_refl))).
    cbn [List.filter] in Hties. rewrite (tie_refl y Dy) in Hties.
    discriminate.
  - apply Forall_cons_iff in D1 as [Dx _].
    specialize (Hties x (or_introl (or_introl eq_refl))).
    cbn [List.filter] in Hties. rewrite (tie_refl x Dx) in Hties.
    discriminate.
  - apply Forall_cons_iff in D1 as [Dx D1].
    apply Forall_cons_iff in D2 as [Dy D2].
    apply StronglySorted_inv in S1 as [S1 Hx].
    apply StronglySorted_inv in S2 as [S2 Hy].
    rewrite List.Forall_forall in Hx, Hy.
    assert (Hxy : after x y = false).
    { assert (Hin : In y (List.filter (tie y) (x :: t1))).
      { rewrite (Hties y) by (right; now left).
        apply filter_In. split; [now left|now apply tie_refl]. }
      apply filter_In in Hin as [[<-|Hin] _].
      - apply tie_not_after. now apply tie_refl.
      - now apply Hx. }
    assert (Hyx : after y x = false).
    { assert (Hin : In x (List.filter (tie x) (y :: t2))).
      { rewrite <- (Hties x) by (left; now left).
        apply filter_In. split; [now left|now apply tie_refl]. }
      apply filter_In in Hin as [[<-|Hin] _].
      - apply tie_not_after. now apply tie_refl.
      - now apply Hy. }
    assert (Heq : x = y).
    { pose proof (Hties x (or_introl (or_introl eq_refl))) as Hh.
      cbn [List.filter] in Hh.
      rewrite (tie_refl x Dx), (tie_antisym x y Dx Dy Hxy Hyx) in Hh.
      congruence. }
    subst y. f_equal. apply IH; auto.
    intros z Hz.
    assert (Hh : List.filter (tie z) (x :: t1) = List.filter (tie z) (x :: t2)).
    { apply Hties. destruct Hz; [left|right]; now right. }
    cbn [List.filter] in Hh. destruct (tie z x); congruence.
Qed.

(** Every sort that ECMA-262 allows returns the same list. *)
Lemma stable_sort_unique (input out1 out2 : list A) :
  Forall D input ->
  stable_sort_of comparefn input out1 ->
  stable_sort_of comparefn input out2 ->
  out1 = out2.
Proof.
  intros Din (P1 & S1 & T1) (P2 & S2 & T2).
  apply sort_order_unique; auto.
  - now rewrite <- P1.
  - now rewrite <- P2.
  - intros x [Hx|Hx].
    + apply (Permutation_in x (Permutation_sym P1)) in Hx.
      now rewrite T1, T2.
    + apply (Permutation_in x (Permutation_sym P2)) in Hx.
      now rewrite T1, T2.
Qed.

End SortFacts.

(** ** Consistent comparators and the sort of an engine *)

Section ConsistentFacts.

Context {A : Type} (comparefn : A -> A -> number).

Local Abbreviation after := (JS.after comparefn).
Local Abbreviation before := (JS.before comparefn).
Local Abbreviation tie := (JS.tie comparefn).

(** [SortCompare] returns a number that is not NaN, so exactly one of
    [before], [tie] and [after] holds of two elements. *)
Lemma SortCompare_cases (x y : A) :
  (before x y = true /\ tie x y = false /\ after x y = false) \/
  (before x y = false /\ tie x y = true /\ after x y = false) \/
  (before x y = false /\ tie x y = false /\ after x y = true).
Proof.
  unfold JS.before, JS.tie, JS.after, SortCompare.
  destruct (comparefn x y) as [[|]|[|]| |[|] m e]; cbv; auto.
Qed.

Variable l : list A.
Hypothesis Hl : consistent comparefn l.

Lemma consistent_tie_refl (x : A) : In x l -> tie x x = true.
Proof. intros Hx. now destruct (Hl x x x Hx Hx Hx). Qed.

Lemma consistent_tie_sym (x y : A) :
  In x l -> In y l -> tie x y = true -> tie y x = true.
Proof. intros Hx Hy. now destruct (Hl x y y Hx Hy Hy) as (_ & H & _). Qed.

Lemma consistent_tie_trans (x y z : A) :
  In x l -> In y l -> In z l ->
  tie x y = true -> tie y z = true -> tie x z = true.
Proof. intros Hx Hy Hz. now destruct (Hl x y z Hx Hy Hz) as (_ & _ & H & _). Qed.

Lemma consistent_before_trans (x y z : A) :
  In x l -> In y l -> In z l ->
  before x y = true -> before y z = true -> before x z = true.
Proof.
  intros Hx Hy Hz. now destruct (Hl x y z Hx Hy Hz) as (_ & _ & _ & H & _).
Qed.

Lemma consistent_after_trans (x y z : A) :
  In x l -> In y l -> In z l ->
  after x y = true -> after y z = true -> after x z = true.
Proof.
  intros Hx Hy Hz. now destruct (Hl x y z Hx Hy Hz) as (_ & _ & _ & _ & H).
Qed.

Lemma consistent_before_after (x y : A) :
  In x l -> In y l -> before x y = true -> after y x = true.
Proof.
  intros Hx Hy Hb.
  destruct (SortCompare_cases y x) as [(Hb' & _)|[(_ & Ht & _)|(_ & _ & Ha)]].
  - pose proof (consistent_before_trans x y x Hx Hy Hx Hb Hb') as H.
    pose proof (consistent_tie_refl x Hx) as Hr.
    destruct (SortCompare_cases x x) as [(? & ? & ?)|[(? & ? & ?)|(? & ? & ?)]];
      congruence.
  - pose proof (consistent_tie_sym y x Hy Hx Ht) as H.
    destruct (SortCompare_cases x y) as [(? & ? & ?)|[(? & ? & ?)|(? & ? & ?)]];
      congruence.
  - exact Ha.
Qed.

Lemma consistent_after_before (x y : A) :
  In x l -> In y l -> after x y = true -> before y x = true.
Proof.
  intros Hx Hy Ha.
  destruct (SortCompare_cases y x) as [(Hb & _)|[(_ & Ht & _)|(_ & _ & Ha')]].
  - exact Hb.
  - pose proof (consistent_tie_sym y x Hy Hx Ht) as H.
    destruct (SortCompare_cases x y) as [(? & ? & ?)|[(? & ? & ?)|(? & ? & ?)]];
      congruence.
  - pose proof (consistent_after_trans x y x Hx Hy Hx Ha Ha') as H.
    pose proof (consistent_tie_refl x Hx) as Hr.
    destruct (SortCompare_cases x x) as [(? & ? & ?)|[(? & ? & ?)|(? & ? & ?)]];
      congruence.
Qed.

Lemma consistent_asym (x y : A) :
  In x l -> In y l -> after x y = true -> after y x = false.
Proof.
  intros Hx Hy Ha. apply (consistent_after_before x y Hx Hy) in Ha.
  destruct (SortCompare_cases y x) as [(? & ? & ?)|[(? & ? & ?)|(? & ? & ?)]];
    congruence.
Qed.

(** Not after is transitive. *)
Lemma consistent_not_after_trans (x y z : A) :
  In x l -> In y l -> In z l ->
  after x y = false -> after y z = false -> after x z = false.
Proof.
  intros Hx Hy Hz Hxy Hyz.
  destruct (after x z) eqn:Hxz; [exfalso|reflexivity].
  destruct (SortCompare_cases x y) as [(Bxy & _)|[(_ & Txy & _)|(_ & _ & ?)]];
    [| |congruence];
    (destruct (SortCompare_cases y z)
       as [(Byz & _)|[(_ & Tyz & _)|(_ & _ & ?)]]; [| |congruence]).
  - pose proof (consistent_before_trans x y z Hx Hy Hz Bxy Byz) as H.
    destruct (SortCompare_cases x z) as [(? & ? & ?)|[(? & ? & ?)|(? & ? & ?)]];
      congruence.
  - (* x before y, y tie z, x after z: y after x, so y after z *)
    pose proof (consistent_before_after x y Hx Hy Bxy) as Ayx.
    pose proof (consistent_after_trans y x z Hy Hx Hz Ayx Hxz) as H.
    destruct (SortCompare_cases y z) as [(? & ? & ?)|[(? & ? & ?)|(? & ? & ?)]];
      congruence.
  - (* x tie y, y before z, x after z: z after y, so x after y *)
    pose proof (consistent_before_after y z Hy Hz Byz) as Azy.
    pose proof (consistent_after_trans x z y Hx Hz Hy Hxz Azy) as H.
    destruct (SortCompare_cases x y) as [(? & ? & ?)|[(? & ? & ?)|(? & ? & ?)]];
      congruence.
  - pose proof (consistent_tie_trans x y z Hx Hy Hz Txy Tyz) as H.
    destruct (SortCompare_cases x z) as [(? & ? & ?)|[(? & ? & ?)|(? & ? & ?)]];
      congruence.
Qed.

Lemma consistent_tie_antisym (x y : A) :
  In x l -> In y l -> after x y = false -> after y x = false ->
  tie x y = true.
Proof.
  intros Hx Hy Hxy Hyx.
  destruct (SortCompare_cases x y) as [(Bxy & _)|[(_ & T & _)|(_ & _ & ?)]];
    [|exact T|congruence].
  apply (consistent_before_after x y Hx Hy) in Bxy. congruence.
Qed.

Lemma consistent_tie_class (x y z : A) :
  In x l -> In y l -> In z l ->
  tie x y = true -> tie x z = true -> after y z = false.
Proof.
  intros Hx Hy Hz Txy Txz.
  apply (consistent_tie_sym x y Hx Hy) in Txy.
  pose proof (consistent_tie_trans y x z Hy Hx Hz Txy Txz) as H.
  destruct (SortCompare_cases y z) as [(? & ? & ?)|[(? & ? & ?)|(? & ? & ?)]];
    congruence.
Qed.

Lemma Forall_In_self : Forall (fun x => In x l) l.
Proof. now apply List.Forall_forall. Qed.

(** The insertion sort on a consistent comparator is the stable sort. *)
Lemma Array_sort_consistent :
  stable_sort_of comparefn l (Array_sort comparefn l).
Proof.
  apply (Array_sort_stable comparefn (fun x => In x l)).
  - apply consistent_asym.
  - apply consistent_not_after_trans.
  - apply consistent_tie_class.
  - apply Forall_In_self.
Qed.

(** Every stable sort of the list is the same list. *)
Lemma consistent_unique (out1 out2 : list A) :
  stable_sort_of comparefn l out1 -> stable_sort_of comparefn l out2 ->
  out1 = out2.
Proof.
  apply (stable_sort_unique comparefn (fun x => In x l)).
  - apply consistent_tie_refl.
  - apply consistent_tie_antisym.
  - apply Forall_In_self.
Qed.

End ConsistentFacts.

Section EngineFacts.

Lemma insertion_sort_conforming : conforming insertion_sort.
Proof.
  split; intros A comparefn l.
  - apply Array_sort_Permutation.
  - apply Array_sort_consistent.
Qed.

Variable sort : sort_fn.
Hypothesis Hsort : conforming sort.

Context {A : Type} (comparefn : A -> A -> number).

Lemma sort_Permutation (l : list A) : Permutation l (sort A comparefn l).
Proof. apply (proj1 Hsort). Qed.

Lemma sort_In (x : A) (l : list A) : In x (sort A comparefn l) <-> In x l.
Proof.
  split; apply Permutation_in;
    [apply Permutation_sym|]; apply sort_Permutation.
Qed.

Lemma sort_Forall (P : A -> Prop) (l : list A) :
  Forall P (sort A comparefn l) <-> Forall P l.
Proof.
  rewrite !List.Forall_forall.
  split; intros H x Hx; apply H; now apply sort_In.
Qed.

Lemma sort_length (l : list A) : length (sort A comparefn l) = length l.
Proof. symmetry. apply Permutation_length, sort_Permutation. Qed.

Lemma sort_stable (l : list A) :
  consistent comparefn l -> stable_sort_of comparefn l (sort A comparefn l).
Proof. apply (proj2 Hsort). Qed.

(** On a consistent comparator the sort of an engine is the insertion
    sort. *)
Lemma sort_insertion (l : list A) :
  consistent comparefn l -> sort A comparefn l = Array_sort comparefn l.
Proof.
  intros Hl. apply (consistent_unique comparefn l Hl).
  - now apply sort_stable.
  - now apply Array_sort_consistent.
Qed.

(** A list in sort order is left as it is. *)
Lemma sort_sorted (l : list A) :
  consistent comparefn l -> sort_order comparefn l ->
  sort A comparefn l = l.
Proof.
  intros Hl Hs. apply (consistent_unique comparefn l Hl).
  - now apply sort_stable.
  - split; [reflexivity|]. split; [exact Hs|reflexivity].
Qed.

End EngineFacts.

Lemma consistent_incl {A : Type} (comparefn : A -> A -> number)
  (l l' : list A) :
  (forall x, In x l' -> In x l) -> consistent comparefn l ->
  consistent comparefn l'.
Proof. intros Hincl Hl a b c Ha Hb Hc. apply Hl; auto. Qed.

(** ** The sort of V8 on short arrays *)

Section V8Facts.

Context {A : Type} (comparefn : A -> A -> number).

Local Abbreviation after := (JS.after comparefn).
Local Abbreviation before := (JS.before comparefn).
Local Abbreviation tie := (JS.tie comparefn).

(** *** The result is a permutation, whatever the comparator *)

Lemma insert_at_Permutation (left : nat) (pivot : A) (sorted : list A) :
  Permutation (pivot :: sorted)
              (firstn left sorted ++ pivot :: skipn left sorted).
Proof.
  etransitivity; [|apply Permutation_middle]. now rewrite firstn_skipn.
Qed.

Lemma BinaryInsertionSort_Permutation (rest sorted : list A) :
  Permutation (sorted ++ rest) (BinaryInsertionSort comparefn sorted rest).
Proof.
  unfold BinaryInsertionSort. revert sorted.
  induction rest as [|pivot rest IH]; intros sorted; cbn [fold_left].
  - now rewrite app_nil_r.
  - etransitivity; [|apply IH].
    etransitivity; [symmetry; apply Permutation_middle|].
    apply (Permutation_app_tail rest
             (insert_at_Permutation _ pivot sorted)).
Qed.

Lemma CountAndMakeRun_Permutation (l : list A) :
  Permutation l (snd (CountAndMakeRun comparefn l)).
Proof.
  destruct l as [|high [|low rest]]; try reflexivity.
  unfold CountAndMakeRun. cbv zeta. cbn [snd].
  destruct (lt _ _); [|reflexivity].
  etransitivity;
    [|apply Permutation_app_tail, Permutation_rev].
  now rewrite firstn_skipn.
Qed.

Lemma V8_sort_Permutation (l : list A) :
  Permutation l (V8_sort A comparefn l).
Proof.
  unfold V8_sort.
  pose proof (CountAndMakeRun_Permutation l) as H.
  destruct (CountAndMakeRun comparefn l) as [n w]. cbn [snd] in H.
  etransitivity; [exact H|].
  etransitivity; [|apply BinaryInsertionSort_Permutation].
  now rewrite firstn_skipn.
Qed.

(** *** Lists in order *)

Lemma StronglySorted_app_intro (R : A -> A -> Prop) (l1 l2 : list A) :
  StronglySorted R l1 -> StronglySorted R l2 ->
  (forall x y, In x l1 -> In y l2 -> R x y) ->
  StronglySorted R (l1 ++ l2).
Proof.
  intros H1 H2 H. induction H1 as [|a t Ht IH Ha]; [exact H2|].
  cbn [app]. constructor.
  - apply IH. intros x y Hx Hy. apply H; [now right|exact Hy].
  - apply Forall_app. split; [exact Ha|].
    apply List.Forall_forall. intros y Hy. apply H; [now left|exact Hy].
Qed.

Lemma StronglySorted_app_elim (R : A -> A -> Prop) (l1 l2 : list A) :
  StronglySorted R (l1 ++ l2) ->
  StronglySorted R l1 /\ StronglySorted R l2 /\
  (forall x y, In x l1 -> In y l2 -> R x y).
Proof.
  induction l1 as [|a t IH]; cbn [app]; intros H.
  - split; [constructor|]. split; [exact H|]. intros x y [].
  - apply StronglySorted_inv in H as [Ht Ha].
    destruct (IH Ht) as (H1 & H2 & H12).
    apply Forall_app in Ha as [Ha1 Ha2].
    split; [now constructor|]. split; [exact H2|].
    intros x y [<-|Hx] Hy.
    + rewrite List.Forall_forall in Ha2. now apply Ha2.
    + now apply H12.
Qed.

Lemma StronglySorted_rev (R : A -> A -> Prop) (s : list A) :
  StronglySorted R s -> StronglySorted (fun x y => R y x) (rev s).
Proof.
  induction 1 as [|a t Ht IH Ha]; [constructor|].
  cbn [rev]. apply StronglySorted_app_intro; [exact IH|repeat constructor|].
  intros x y Hx [<-|[]]. rewrite List.Forall_forall in Ha.
  apply Ha. now apply in_rev.
Qed.

Lemma StronglySorted_weaken (R R' : A -> A -> Prop) (s : list A) :
  (forall x y, R x y -> R' x y) ->
  StronglySorted R s -> StronglySorted R' s.
Proof.
  intros HR. induction 1 as [|a t Ht IH Ha]; constructor; [exact IH|].
  eapply List.Forall_impl; [|exact Ha]. intros y. apply HR.
Qed.

(** The elements before and after an element of a list in order. *)
Lemma StronglySorted_nth (R : A -> A -> Prop) (s : list A) :
  StronglySorted R s ->
  forall mid e, nth_error s mid = Some e ->
    Forall (fun x => R x e) (firstn mid s) /\
    Forall (R e) (skipn (S mid) s).
Proof.
  induction 1 as [|a t Ht IH Ha]; intros mid e He.
  - destruct mid; discriminate He.
  - destruct mid as [|mid]; cbn in He.
    + injection He as <-. split; [constructor|exact Ha].
    + destruct (IH mid e He) as [H1 H2].
      split; [|exact H2]. cbn [firstn]. constructor; [|exact H1].
      rewrite List.Forall_forall in Ha. apply Ha.
      eapply nth_error_In. exact He.
Qed.

Lemma skipn_nth (s : list A) :
  forall mid e, nth_error s mid = Some e ->
    skipn mid s = e :: skipn (S mid) s.
Proof.
  induction s as [|a t IH]; intros [|mid] e He; try discriminate He.
  - now injection He as <-.
  - cbn in He. cbn [skipn]. now apply IH.
Qed.

Lemma firstn_nth (s : list A) :
  forall mid e, nth_error s mid = Some e ->
    firstn (S mid) s = firstn mid s ++ [e].
Proof.
  induction s as [|a t IH]; intros [|mid] e He; try discriminate He.
  - now injection He as <-.
  - cbn in He. cbn [firstn app]. f_equal. now apply IH.
Qed.

Lemma firstn_skipn_app (l1 l2 : list A) (n : nat) :
  length l1 = n -> firstn n (l1 ++ l2) = l1 /\ skipn n (l1 ++ l2) = l2.
Proof.
  intros <-. split; [apply take_app_length|apply drop_app_length].
Qed.

Lemma filter_rev_list (P : A -> bool) (s : list A) :
  List.filter P (rev s) = rev (List.filter P s).
Proof.
  induction s as [|a t IH]; [reflexivity|].
  cbn [rev List.filter]. rewrite List.filter_app, IH. cbn [List.filter].
  destruct (P a); cbn [rev]; [reflexivity|now rewrite app_nil_r].
Qed.

Lemma filter_nil_on (P : A -> bool) (s : list A) :
  (forall y, In y s -> P y = false) -> List.filter P s = [].
Proof.
  induction s as [|a t IH]; intros H; [reflexivity|].
  cbn [List.filter]. rewrite (H a (or_introl eq_refl)).
  apply IH. intros y Hy. apply H. now right.
Qed.

Lemma before_not_after (x y : A) : before x y = true -> after x y = false.
Proof.
  intros H.
  destruct (SortCompare_cases comparefn x y)
    as [(? & ? & ?)|[(? & ? & ?)|(? & ? & ?)]]; congruence.
Qed.

Lemma tie_not_before (x y : A) : tie x y = true -> before x y = false.
Proof.
  intros H.
  destruct (SortCompare_cases comparefn x y)
    as [(? & ? & ?)|[(? & ? & ?)|(? & ? & ?)]]; congruence.
Qed.

Lemma run_rest_le (isDescending : bool) (rest : list A) :
  forall previousElement,
    (run_rest comparefn isDescending previousElement rest <= length rest)%nat.
Proof.
  induction rest as [|c t IH]; intros p; cbn [run_rest length]; [lia|].
  destruct (Bool.eqb _ _); [|lia]. specialize (IH c). lia.
Qed.

(** The run that [CountAndMakeRun] finds starts with the first element. *)
Lemma CountAndMakeRun_run (elementHigh elementLow : A) (rest : list A) :
  CountAndMakeRun comparefn (elementHigh :: elementLow :: rest)
  = let workArray := elementHigh :: elementLow :: rest in
    let isDescending := before elementLow elementHigh in
    let runLength :=
      S (run_rest comparefn isDescending elementHigh (elementLow :: rest)) in
    (runLength,
     if isDescending
     then rev (firstn runLength workArray) ++ skipn runLength workArray
     else workArray).
Proof.
  unfold CountAndMakeRun. cbv zeta. cbn [run_rest].
  change (lt (SortCompare comparefn elementLow elementHigh) (num 0))
    with (before elementLow elementHigh).
  now rewrite Bool.eqb_reflx.
Qed.

(** *** On a consistent comparator the result is the stable sort *)

Variable l : list A.
Hypothesis Hl : consistent comparefn l.

Local Abbreviation known := (Forall (fun x => In x l)).

Lemma not_before_not_after (x y : A) :
  In x l -> In y l -> before x y = false -> after y x = false.
Proof.
  intros Hx Hy H. destruct (after y x) eqn:Ha; [|reflexivity].
  apply (consistent_after_before comparefn l Hl y x Hy Hx) in Ha. congruence.
Qed.

(** An ascending run is in sort order. *)
Lemma run_ascending (rest : list A) :
  forall previousElement,
    In previousElement l -> known rest ->
    sort_order comparefn
      (previousElement
       :: firstn (run_rest comparefn false previousElement rest) rest).
Proof.
  induction rest as [|c t IH]; intros p Hp Hrest; cbn [run_rest].
  - repeat constructor.
  - apply Forall_cons_iff in Hrest as [Hc Ht].
    change (lt (SortCompare comparefn c p) (num 0)) with (before c p).
    destruct (before c p) eqn:Hcp; cbn [Bool.eqb firstn];
      [repeat constructor|].
    specialize (IH c Hc Ht).
    pose proof (not_before_not_after c p Hc Hp Hcp) as Hpc.
    constructor; [exact IH|]. constructor; [exact Hpc|].
    apply StronglySorted_inv in IH as [_ IH].
    pose proof (Forall_take (fun x => In x l)
                  (run_rest comparefn false c t) t Ht) as Hin.
    rewrite List.Forall_forall in IH, Hin. apply List.Forall_forall.
    intros y Hy.
    apply (consistent_not_after_trans comparefn l Hl p c y); auto.
Qed.

(** A descending run is strictly descending. *)
Lemma run_descending (rest : list A) :
  forall previousElement,
    In previousElement l -> known rest ->
    StronglySorted (fun x y => before y x = true)
      (previousElement
       :: firstn (run_rest comparefn true previousElement rest) rest).
Proof.
  induction rest as [|c t IH]; intros p Hp Hrest; cbn [run_rest].
  - repeat constructor.
  - apply Forall_cons_iff in Hrest as [Hc Ht].
    change (lt (SortCompare comparefn c p) (num 0)) with (before c p).
    destruct (before c p) eqn:Hcp; cbn [Bool.eqb firstn];
      [|repeat constructor].
    specialize (IH c Hc Ht).
    constructor; [exact IH|]. constructor; [exact Hcp|].
    apply StronglySorted_inv in IH as [_ IH].
    pose proof (Forall_take (fun x => In x l)
                  (run_rest comparefn true c t) t Ht) as Hin.
    rewrite List.Forall_forall in IH, Hin. apply List.Forall_forall.
    intros y Hy.
    apply (consistent_before_trans comparefn l Hl y c p); auto.
Qed.

(** Of a strictly descending list at most one element ties with a given
    element, so the reversed list has the same ties in the same order. *)
Lemma descending_ties (x : A) (s : list A) :
  In x l -> known s ->
  StronglySorted (fun a b => before b a = true) s ->
  (length (List.filter (tie x) s) <= 1)%nat.
Proof.
  intros Hx Hs Hd. induction Hd as [|a t Ht IH Ha]; [cbn; lia|].
  apply Forall_cons_iff in Hs as [Hain Htin].
  cbn [List.filter]. destruct (tie x a) eqn:Hxa; [|now apply IH].
  assert (Hnone : List.filter (tie x) t = []).
  { rewrite List.Forall_forall in Ha, Htin.
    apply filter_nil_on. intros b Hb.
    destruct (tie x b) eqn:Hxb; [exfalso|reflexivity].
    pose proof (Ha b Hb) as Hba. pose proof (Htin b Hb) as Hbin.
    apply (consistent_tie_sym comparefn l Hl x b Hx Hbin) in Hxb.
    pose proof (consistent_tie_trans comparefn l Hl b x a Hbin Hx Hain
                  Hxb Hxa) as H.
    apply tie_not_before in H. congruence. }
  rewrite Hnone. cbn. lia.
Qed.

Lemma descending_rev_ties (x : A) (s : list A) :
  In x l -> known s ->
  StronglySorted (fun a b => before b a = true) s ->
  List.filter (tie x) (rev s) = List.filter (tie x) s.
Proof.
  intros Hx Hs Hd. rewrite filter_rev_list.
  pose proof (descending_ties x s Hx Hs Hd) as H.
  destruct (List.filter (tie x) s) as [|a [|b t]]; try reflexivity.
  cbn in H. lia.
Qed.

(** The binary search returns a place after the elements that the pivot
    is not before and before the elements that it is before. *)
Lemma insertion_point_spec (pivot : A) (sorted : list A) :
  In pivot l -> known sorted -> sort_order comparefn sorted ->
  forall (fuel left right : nat),
    (left <= right <= length sorted)%nat -> (right - left <= fuel)%nat ->
    Forall (fun e => before pivot e = false) (firstn left sorted) ->
    Forall (fun e => before pivot e = true) (skipn right sorted) ->
    Forall (fun e => before pivot e = false)
      (firstn (insertion_point fuel comparefn pivot sorted left right)
              sorted) /\
    Forall (fun e => before pivot e = true)
      (skipn (insertion_point fuel comparefn pivot sorted left right)
             sorted).
Proof.
  intros Hp Hin Hs.
  induction fuel as [|fuel IH]; intros left right Hlr Hfuel Hleft Hright;
    cbn [insertion_point].
  - replace right with left in Hright by lia. auto.
  - destruct (Nat.ltb_spec left right) as [Hlt|Hge];
      [|replace right with left in Hright by lia; auto].
    pose proof (Nat.lt_div2 (right - left) ltac:(lia)) as Hdiv.
    revert Hdiv. generalize (Nat.div2 (right - left)). intros half Hdiv.
    set (mid := (left + half)%nat) in *.
    assert (Hmid : mid = (left + half)%nat) by reflexivity.
    clearbody mid.
    destruct (nth_error sorted mid) as [e|] eqn:He;
      [|apply nth_error_None in He; lia].
    destruct (StronglySorted_nth _ sorted Hs mid e He) as [Hlow Hhigh].
    assert (Hein : In e l).
    { rewrite List.Forall_forall in Hin. apply Hin.
      eapply nth_error_In. exact He. }
    pose proof (Forall_take (fun x => In x l) mid sorted Hin) as Hlowin.
    pose proof (Forall_drop (fun x => In x l) (S mid) sorted Hin) as Hhighin.
    rewrite List.Forall_forall in Hlow, Hhigh, Hlowin, Hhighin.
    change (lt (SortCompare comparefn pivot e) (num 0)) with (before pivot e).
    destruct (before pivot e) eqn:Hpe.
    + apply IH; [lia|lia|exact Hleft|].
      rewrite (skipn_nth sorted mid e He). constructor; [exact Hpe|].
      apply List.Forall_forall. intros y Hy.
      destruct (before pivot y) eqn:Hpy; [reflexivity|exfalso].
      pose proof (not_before_not_after pivot y Hp (Hhighin y Hy) Hpy) as Hyp.
      pose proof (consistent_not_after_trans comparefn l Hl e y pivot
                    Hein (Hhighin y Hy) Hp (Hhigh y Hy) Hyp) as H.
      pose proof (consistent_before_after comparefn l Hl pivot e Hp Hein Hpe).
      congruence.
    + apply IH; [lia|lia| |exact Hright].
      rewrite (firstn_nth sorted mid e He). apply Forall_app. split;
        [|repeat constructor; exact Hpe].
      apply List.Forall_forall. intros y Hy.
      destruct (before pivot y) eqn:Hpy; [exfalso|reflexivity].
      pose proof (consistent_before_after comparefn l Hl pivot y Hp
                    (Hlowin y Hy) Hpy) as Hyp.
      pose proof (not_before_not_after pivot e Hp Hein Hpe) as Hep.
      pose proof (consistent_not_after_trans comparefn l Hl y e pivot
                    (Hlowin y Hy) Hein Hp (Hlow y Hy) Hep) as H.
      congruence.
Qed.

(** The pivot at that place: the list stays in sort order, and the elements
    that tie with an element keep their order, the pivot last. *)
Lemma insert_at_sorted (pivot : A) (sorted : list A) (left : nat) :
  In pivot l -> known sorted -> sort_order comparefn sorted ->
  Forall (fun e => before pivot e = false) (firstn left sorted) ->
  Forall (fun e => before pivot e = true) (skipn left sorted) ->
  sort_order comparefn (firstn left sorted ++ pivot :: skipn left sorted) /\
  forall x, In x l ->
    List.filter (tie x) (firstn left sorted ++ pivot :: skipn left sorted)
    = List.filter (tie x) (sorted ++ [pivot]).
Proof.
  intros Hp Hin Hs Hlow Hhigh.
  pose proof (Forall_take (fun x => In x l) left sorted Hin) as Hlowin.
  pose proof (Forall_drop (fun x => In x l) left sorted Hin) as Hhighin.
  rewrite List.Forall_forall in Hlow, Hhigh, Hlowin, Hhighin.
  split.
  - unfold sort_order in *. rewrite <- (firstn_skipn left sorted) in Hs.
    apply StronglySorted_app_elim in Hs as (H1 & H2 & H12).
    apply StronglySorted_app_intro; [exact H1| |].
    + constructor; [exact H2|]. apply List.Forall_forall. intros y Hy.
      apply before_not_after. now apply Hhigh.
    + intros x y Hx [<-|Hy]; [|now apply H12].
      apply not_before_not_after; auto.
  - intros x Hx.
    rewrite <- (firstn_skipn left sorted) at 3.
    rewrite !List.filter_app. cbn [List.filter].
    destruct (tie x pivot) eqn:Hxp; [|now rewrite app_nil_r].
    assert (Hnone : List.filter (tie x) (skipn left sorted) = []).
    { apply filter_nil_on. intros b Hb.
      destruct (tie x b) eqn:Hxb; [exfalso|reflexivity].
      pose proof (Hhigh b Hb) as Hpb. pose proof (Hhighin b Hb) as Hbin.
      apply (consistent_tie_sym comparefn l Hl x pivot Hx Hp) in Hxp.
      pose proof (consistent_tie_trans comparefn l Hl pivot x b Hp Hx Hbin
                    Hxp Hxb) as H.
      apply tie_not_before in H. congruence. }
    rewrite Hnone. now rewrite app_nil_r.
Qed.

Lemma BinaryInsertionSort_stable (rest : list A) :
  forall sorted,
    known sorted -> known rest -> sort_order comparefn sorted ->
    sort_order comparefn (BinaryInsertionSort comparefn sorted rest) /\
    forall x, In x l ->
      List.filter (tie x) (BinaryInsertionSort comparefn sorted rest)
      = List.filter (tie x) (sorted ++ rest).
Proof.
  unfold BinaryInsertionSort.
  induction rest as [|pivot rest IH]; intros sorted Hin Hrest Hs;
    cbn [fold_left].
  - rewrite app_nil_r. auto.
  - apply Forall_cons_iff in Hrest as [Hp Hrest].
    set (left := insertion_point (length sorted) comparefn pivot sorted 0
                                 (length sorted)).
    destruct (insertion_point_spec pivot sorted Hp Hin Hs
                (length sorted) 0 (length sorted))
      as [Hlow Hhigh]; [lia|lia|constructor| |].
    { rewrite skipn_all. constructor. }
    fold left in Hlow, Hhigh.
    destruct (insert_at_sorted pivot sorted left Hp Hin Hs Hlow Hhigh)
      as [Hs' Hties].
    destruct (IH (firstn left sorted ++ pivot :: skipn left sorted))
      as [Hout Hfilter]; [|exact Hrest|exact Hs'|].
    { apply Forall_app. split; [now apply Forall_take|].
      constructor; [exact Hp|now apply Forall_drop]. }
    split; [exact Hout|]. intros x Hx.
    rewrite (Hfilter x Hx), List.filter_app, (Hties x Hx),
      <- List.filter_app, <- app_assoc.
    reflexivity.
Qed.

Lemma V8_sort_stable (workArray : list A) :
  known workArray ->
  sort_order comparefn (V8_sort A comparefn workArray) /\
  forall x, In x l ->
    List.filter (tie x) (V8_sort A comparefn workArray)
    = List.filter (tie x) workArray.
Proof.
  intros Hin. unfold V8_sort.
  destruct workArray as [|high [|low rest]].
  - cbn. split; [constructor|]. reflexivity.
  - cbn. split; [repeat constructor|]. reflexivity.
  - rewrite CountAndMakeRun_run.
    assert (Hhigh : In high l) by now apply Forall_cons_iff in Hin as [H _].
    assert (Hrest : known (low :: rest))
      by now apply Forall_cons_iff in Hin as [_ H].
    pose proof (run_rest_le (before low high) (low :: rest) high) as Hn.
    pose proof (run_descending (low :: rest) high Hhigh Hrest) as Hdesc.
    pose proof (run_ascending (low :: rest) high Hhigh Hrest) as Hasc.
    cbv zeta. destruct (before low high); cbv beta iota.
    + clear Hasc.
      set (n := run_rest comparefn true high (low :: rest)) in *.
      set (w := high :: low :: rest) in *.
      change (high :: firstn n (low :: rest)) with (firstn (S n) w) in Hdesc.
      assert (Hlen : length (rev (firstn (S n) w)) = S n).
      { rewrite length_rev, firstn_length_le; [reflexivity|].
        unfold w. cbn [length] in *. lia. }
      destruct (firstn_skipn_app (rev (firstn (S n) w)) (skipn (S n) w)
                  (S n) Hlen) as [-> ->].
      destruct (BinaryInsertionSort_stable (skipn (S n) w)
                  (rev (firstn (S n) w)))
        as [Hout Hfilter].
      * apply List.Forall_forall. intros x Hx. apply in_rev in Hx.
        pose proof (Forall_take (fun x => In x l) (S n) w Hin) as H.
        rewrite List.Forall_forall in H. now apply H.
      * now apply Forall_drop.
      * apply (StronglySorted_weaken (fun x y => before x y = true)).
        -- intros x y. apply before_not_after.
        -- apply (StronglySorted_rev (fun x y => before y x = true)).
           exact Hdesc.
      * split; [exact Hout|]. intros x Hx.
        rewrite (Hfilter x Hx), List.filter_app.
        rewrite (descending_rev_ties x (firstn (S n) w) Hx
                   (Forall_take _ _ _ Hin) Hdesc).
        now rewrite <- List.filter_app, firstn_skipn.
    + clear Hdesc.
      set (n := run_rest comparefn false high (low :: rest)) in *.
      set (w := high :: low :: rest) in *.
      change (high :: firstn n (low :: rest)) with (firstn (S n) w) in Hasc.
      destruct (BinaryInsertionSort_stable (skipn (S n) w)
                  (firstn (S n) w))
        as [Hout Hfilter];
        [now apply Forall_take|now apply Forall_drop|exact Hasc|].
      split; [exact Hout|]. intros x Hx.
      now rewrite (Hfilter x Hx), firstn_skipn.
Qed.

Lemma V8_sort_consistent : stable_sort_of comparefn l (V8_sort A comparefn l).
Proof.
  split; [apply V8_sort_Permutation|].
  destruct (V8_sort_stable l (Forall_In_self l)) as [Hs Hties].
  split; [exact Hs|exact Hties].
Qed.

End V8Facts.

Lemma V8_sort_conforming : conforming V8_sort.
Proof.
  split; intros A comparefn l.
  - apply V8_sort_Permutation.
  - apply V8_sort_consistent.
Qed.

(** ** Property lookup *)

Section LookupFacts.

Lemma inherited_index_inj (o p : inherited) :
  inherited_index o = inherited_index p -> o = p.
Proof. destruct o, p; simpl; congruence. Qed.

Lemma strict_eq_value_Obj (o p : inherited) :
  strict_eq_value (Obj o) (Obj p) = true <-> o = p.
Proof.
  simpl. rewrite Nat.eqb_eq. split; [apply inherited_index_inj|congruence].
Qed.

(** The lookup of an ordinary name sees the own entries only. *)
Lemma Get_ordinary (object : gmap string number) (name : string) :
  ordinary name ->
  Get object name = match object !! name with
                    | Some x => Num x
                    | None => Undefined
                    end.
Proof. unfold ordinary, Get. now intros ->. Qed.

Lemma Get_own (object : gmap string number) (name : string) (x : number) :
  object !! name = Some x -> Get object name = Num x.
Proof. unfold Get. now intros ->. Qed.

(** The lookup of a name without own entry is never a number. *)
Lemma ToNumber_Get_None (object : gmap string number) (name : string) :
  object !! name = None -> ToNumber (Get object name) = NaN.
Proof.
  unfold Get. intros ->. now destruct (Object_prototype name).
Qed.

End LookupFacts.

(** ** The optimized page *)

Module OptimizedFacts.
Import OptimizedWalletPage.

(** The table has no entry under an inherited name. *)
Lemma table_not_inherited (name : string) (o : inherited) :
  Object_prototype name = Some o -> BLOCKCHAIN_PRIORITIES !! name = None.
Proof.
  unfold Object_prototype.
  repeat match goal with
         | |- context [String.eqb name ?c] =>
             destruct (String.eqb_spec name c) as [->|?]; [reflexivity|]
         end.
  discriminate.
Qed.

Lemma getPriority_inherited (name : string) (o : inherited) :
  Object_prototype name = Some o -> getPriority name = Obj o.
Proof.
  intros H. unfold getPriority, Get.
  now rewrite (table_not_inherited name o H), H.
Qed.

Lemma getPriority_ordinary (name : string) :
  ordinary name ->
  exists p, getPriority name = Num p /\ In p table_priorities.
Proof.
  intros H. unfold getPriority. rewrite (Get_ordinary _ _ H).
  unfold BLOCKCHAIN_PRIORITIES.
  repeat (rewrite lookup_insert; case_decide;
          [eexists; split; [reflexivity|simpl; tauto]|]).
  rewrite lookup_empty. eexists. split; [reflexivity|simpl; tauto].
Qed.


Ltac table_cases :=
  repeat match goal with
         | H : In _ table_priorities |- _ =>
             unfold table_priorities in H; simpl in H
         | H : _ \/ _ |- _ => destruct H as [H|H]
         | H : False |- _ => destruct H
         end.

(** On records with priorities of the table the comparator is
    consistent. *)
Lemma comparator_consistent (l : list PrioritizedBalance.t) :
  Forall resolved l -> consistent comparator l.
Proof.
  intros Hl a b c Ha Hb Hc. rewrite List.Forall_forall in Hl.
  destruct (Hl a Ha) as (pa & Ea & Ia).
  destruct (Hl b Hb) as (pb & Eb & Ib).
  destruct (Hl c Hc) as (pc & Ec & Ic).
  unfold tie, before, after, SortCompare, comparator.
  rewrite Ea, Eb, Ec. clear Ea Eb Ec Hl Ha Hb Hc.
  table_cases; subst pa pb pc; vm_compute; repeat split; congruence.
Qed.


Lemma toFixed_2_Normal (x : number) : exists s, toFixed x 2 = Normal s.
Proof.
  unfold toFixed. change ((2 <? 0) || (100 <? 2)) with false. cbv iota.
  destruct (negb (isFinite x)); [eauto|].
  destruct (real_abs x). eauto.
Qed.

Lemma formatted_of_eq (prices : gmap string number)
  (balance : PrioritizedBalance.t) :
  exists s,
    toFixed (PrioritizedBalance.amount balance) 2 = Normal s /\
    formatted_of prices balance =
      FormattedWalletBalance.make
        (PrioritizedBalance.currency balance)
        (PrioritizedBalance.amount balance)
        s
        (PrioritizedBalance.blockchain balance)
        (mul (ToNumber
                (coalesce (Get prices (PrioritizedBalance.currency balance))
                          (Num (num 0))))
             (PrioritizedBalance.amount balance))
        (PrioritizedBalance.priority balance).
Proof.
  destruct (toFixed_2_Normal (PrioritizedBalance.amount balance)) as [s Hs].
  exists s. split; [exact Hs|].
  unfold formatted_of, format. now rewrite Hs.
Qed.

Lemma format_Normal (prices : gmap string number)
  (balance : PrioritizedBalance.t) :
  format prices balance = Normal (formatted_of prices balance).
Proof.
  destruct (formatted_of_eq prices balance) as (s & Hs & ->).
  unfold format. now rewrite Hs.
Qed.

Lemma formatted_of_amount prices balance :
  FormattedWalletBalance.amount (formatted_of prices balance)
  = PrioritizedBalance.amount balance.
Proof. now destruct (formatted_of_eq prices balance) as (s & _ & ->). Qed.


Lemma formattedBalances_Normal (sort : sort_fn)
  (balances : list WalletBalance.t) (prices : gmap string number) :
  formattedBalances sort balances prices
  = Normal (map (formatted_of prices) (sortedBalances sort balances)).
Proof.
  unfold formattedBalances. apply Array_map_Normal.
  intros b _. apply format_Normal.
Qed.

(** The records that the filter keeps. *)
Lemma filtered_resolved (balances : list WalletBalance.t) :
  ordinary_chains balances ->
  Forall resolved
    (List.filter (fun balance => gt (PrioritizedBalance.amount balance) (num 0))
                 (balancesWithPriority balances)).
Proof.
  intros Hord. apply List.Forall_forall. intros b Hb.
  apply filter_In in Hb as [Hb Hpos].
  apply in_map_iff in Hb as (x & <- & Hx).
  unfold ordinary_chains in Hord. rewrite List.Forall_forall in Hord.
  apply getPriority_ordinary. apply (Hord x Hx). exact Hpos.
Qed.

Section Engine.

Variable sort : sort_fn.
Hypothesis Hsort : conforming sort.

Lemma sortedBalances_positive (balances : list WalletBalance.t) :
  Forall (fun b => gt (PrioritizedBalance.amount b) (num 0) = true)
         (sortedBalances sort balances).
Proof.
  unfold sortedBalances. apply (sort_Forall sort Hsort).
  apply List.Forall_forall. intros b Hb. now apply filter_In in Hb as [_ Hb].
Qed.

Lemma sortedBalances_resolved (balances : list WalletBalance.t) :
  ordinary_chains balances -> Forall resolved (sortedBalances sort balances).
Proof.
  intros Hord. unfold sortedBalances. apply (sort_Forall sort Hsort).
  now apply filtered_resolved.
Qed.

(** With ordinary chain names the sorted list is the stable sort of the
    list that the filter returns. *)
Lemma sortedBalances_stable (balances : list WalletBalance.t) :
  ordinary_chains balances ->
  stable_sort_of comparator
    (List.filter (fun balance => gt (PrioritizedBalance.amount balance) (num 0))
                 (balancesWithPriority balances))
    (sortedBalances sort balances).
Proof.
  intros Hord. unfold sortedBalances. apply (sort_stable sort Hsort).
  apply comparator_consistent. now apply filtered_resolved.
Qed.

Lemma sortedBalances_order (balances : list WalletBalance.t) :
  ordinary_chains balances ->
  sort_order comparator (sortedBalances sort balances).
Proof. intros Hord. now destruct (sortedBalances_stable balances Hord) as (_ & H & _). Qed.

End Engine.



(** Two records with a priority of the table tie when they have the same
    priority, and only then. *)
Lemma tie_same_priority (x y : PrioritizedBalance.t) :
  resolved x -> resolved y ->
  tie comparator x y
  = strict_eq_value (PrioritizedBalance.priority y)
                    (PrioritizedBalance.priority x).
Proof.
  intros (px & Ex & Ix) (py & Ey & Iy).
  unfold tie, SortCompare, comparator. rewrite Ex, Ey.
  table_cases; subst px py; vm_compute; reflexivity.
Qed.


End OptimizedFacts.

(** ** Lists *)



(** ** The optimized page on amounts of any type *)

Module UntypedFacts.
Import Untyped.







End UntypedFacts.

(** * The claims *)

Section Claims.
Import OptimizedWalletPage OptimizedFacts.

(** C1.  For every list of balances and every price table the optimized
    page returns a list of formatted balances, whatever sort the engine
    has, and every element of it has [amount > 0]; none has
    [amount <= 0]. *)
Theorem C1_output_amounts_positive (sort : sort_fn) (Hsort : conforming sort)
  (balances : list WalletBalance.t) (prices : gmap string number) :
  exists out,
    formattedBalances sort balances prices = Normal out /\
    Forall (fun f =>
              gt (FormattedWalletBalance.amount f) (num 0) = true /\
              le (FormattedWalletBalance.amount f) (num 0) = false) out.
Proof.
  eexists. split; [apply formattedBalances_Normal|].
  apply List.Forall_map.
  eapply List.Forall_impl; [|apply (sortedBalances_positive sort Hsort)].
  intros b Hb. cbn beta in *. rewrite formatted_of_amount.
  split; [exact Hb|now apply gt_zero_not_le].
Qed.

Lemma C1_witness :
  exists out,
    formattedBalances insertion_sort mockBalances mockPrices = Normal out /\
    Forall (fun f =>
              gt (FormattedWalletBalance.amount f) (num 0) = true /\
              le (FormattedWalletBalance.amount f) (num 0) = false) out.
Proof.
  exact (C1_output_amounts_positive insertion_sort insertion_sort_conforming
           mockBalances mockPrices).
Defined.




(** C3.  The comparator of the sort, applied to two records whose
    priorities are equal ([===]), returns exactly [0]. *)
Theorem C3_comparator_zero_on_ties (a b : PrioritizedBalance.t) :
  strict_eq_value (PrioritizedBalance.priority a)
                  (PrioritizedBalance.priority b) = true ->
  comparator a b = num 0.
Proof. intros H. unfold comparator. now rewrite H. Qed.

Lemma C3_witness :
  comparator
    (PrioritizedBalance.make "ZIL" (num 1000) "Zilliqa" (Num (num 20)))
    (PrioritizedBalance.make "NEO" (decimal 255 1) "Neo" (Num (num 20)))
  = num 0.
Proof. apply C3_comparator_zero_on_ties. reflexivity. Defined.












End Claims.

(** ** The problematic page *)

Section ProblematicClaims.
Import ProblematicWalletPage.

Lemma keep_spec (balance : WalletBalance.t) :
  keep balance = true ->
  le (WalletBalance.amount balance) (num 0) = true /\
  gt (getPriority (WalletBalance.blockchain balance)) (num (-99)) = true.
Proof.
  unfold keep.
  destruct (gt (getPriority (WalletBalance.blockchain balance)) (num (-99)));
    [|discriminate].
  destruct (le (WalletBalance.amount balance) (num 0)); [auto|discriminate].
Qed.

(** C8.  The problematic filter keeps only records with [amount <= 0] (and
    a priority above [-99]), so its result is empty or wrong, whatever sort
    the engine has: it is never a non-empty list of records with
    [amount > 0]. *)
Theorem C8_problematic_filter (sort : sort_fn) (Hsort : conforming sort)
  (balances : list WalletBalance.t) :
  Forall (fun b =>
            le (WalletBalance.amount b) (num 0) = true /\
            gt (getPriority (WalletBalance.blockchain b)) (num (-99)) = true)
         (sortedBalances sort balances) /\
  forall canonical,
    canonical <> [] ->
    Forall (fun b => gt (WalletBalance.amount b) (num 0) = true) canonical ->
    sortedBalances sort balances <> canonical.
Proof.
  assert (Hall : Forall (fun b =>
            le (WalletBalance.amount b) (num 0) = true /\
            gt (getPriority (WalletBalance.blockchain b)) (num (-99)) = true)
         (sortedBalances sort balances)).
  { unfold sortedBalances. apply (sort_Forall sort Hsort).
    apply List.Forall_forall. intros b Hb. apply filter_In in Hb as [_ Hb].
    now apply keep_spec. }
  split; [exact Hall|].
  intros canonical Hne Hpos Heq. rewrite Heq in Hall.
  destruct canonical as [|b t]; [now apply Hne|].
  apply Forall_cons_iff in Hall as [[Hle _] _].
  apply Forall_cons_iff in Hpos as [Hgt _].
  apply le_zero_not_gt in Hle. congruence.
Qed.

Lemma C8_witness :
  Forall (fun b =>
            le (WalletBalance.amount b) (num 0) = true /\
            gt (getPriority (WalletBalance.blockchain b)) (num (-99)) = true)
         (sortedBalances insertion_sort mockBalances) /\
  sortedBalances insertion_sort mockBalances
  <> [WalletBalance.make "ETH" (decimal 23 1) "Ethereum"].
Proof.
  destruct (C8_problematic_filter insertion_sort insertion_sort_conforming
              mockBalances) as [Hall Hne].
  split; [exact Hall|]. apply Hne.
  - discriminate.
  - constructor; [reflexivity|constructor].
Defined.

End ProblematicClaims.

(** ** The three sums *)

Module SumFacts.
Import SumToN.

(** The two loops have the same body. *)
Lemma sum_to_n_a_b (fuel : nat) (n : number) :
  sum_to_n_a fuel n = sum_to_n_b fuel n.
Proof. reflexivity. Qed.

(** The loop from [i = c] on, with [r] iterations to go. *)
Lemma while_loop_sum (k : Z) (r : nat) :
  forall (c : Z) (s : number) (fuel : nat),
    1 <= c -> c + Z.of_nat r = k + 1 -> k + 1 < 2 ^ 53 ->
    (r < fuel)%nat ->
    while_loop fuel
      (fun v => le (i v) (num k))
      (fun v => make (add (sum v) (i v)) (add (i v) (num 1)))
      (make s (num c))
    = Some (make (fold_left add (map num (seqZ c (Z.of_nat r))) s)
                 (num (k + 1))).
Proof.
  induction r as [|r IH]; intros c s fuel Hc Hr Hk Hfuel;
    (destruct fuel as [|fuel]; [lia|]); cbn [while_loop i sum].
  - rewrite le_num by lia.
    destruct (Z.leb_spec c k) as [H|H]; [lia|].
    replace c with (k + 1) by lia. reflexivity.
  - rewrite le_num by lia.
    destruct (Z.leb_spec c k) as [H|H]; [|lia].
    rewrite add_num by lia.
    rewrite (IH (c + 1)) by lia.
    rewrite (seqZ_cons c (Z.of_nat (S r))) by lia. cbn [map fold_left].
    replace (Z.succ c) with (c + 1) by lia.
    replace (Z.pred (Z.of_nat (S r))) with (Z.of_nat r) by lia.
    reflexivity.
Qed.

Lemma sum_to_n_b_num (k : Z) (fuel : nat) :
  0 <= k -> k + 1 < 2 ^ 53 -> (Z.to_nat k < fuel)%nat ->
  sum_to_n_b fuel (num k) = Some (sum_in_order k).
Proof.
  intros H0 Hk Hfuel. unfold sum_to_n_b.
  rewrite (while_loop_sum k (Z.to_nat k) 1 (num 0) fuel) by lia.
  cbn. unfold sum_in_order. now rewrite Z2Nat.id by lia.
Qed.

(** The array that [sum_to_n_c] builds. *)
Lemma map_succ_seqZ (r : nat) :
  forall c, 0 <= c -> c + Z.of_nat r < 2 ^ 53 ->
    map (fun j => add (num j) (num 1)) (seqZ c (Z.of_nat r))
    = map num (seqZ (c + 1) (Z.of_nat r)).
Proof.
  induction r as [|r IH]; intros c Hc Hr; [reflexivity|].
  rewrite (seqZ_cons c (Z.of_nat (S r))) by lia.
  rewrite (seqZ_cons (c + 1) (Z.of_nat (S r))) by lia. cbn [map].
  replace (Z.pred (Z.of_nat (S r))) with (Z.of_nat r) by lia.
  rewrite add_num by lia. f_equal.
  replace (Z.succ c) with (c + 1) by lia.
  replace (Z.succ (c + 1)) with (c + 1 + 1) by lia.
  apply IH; lia.
Qed.

Lemma sum_to_n_c_num (engine : memory) (k : Z) :
  0 <= k <= 2 ^ 32 - 1 -> k <= Z.of_N (array_limit engine) ->
  sum_to_n_c engine (num k) = Normal (sum_in_order k).
Proof.
  intros Hk Hlimit. unfold sum_to_n_c, Array_from_length.
  rewrite ToLength_num by lia.
  destruct (Z.ltb_spec (2 ^ 32 - 1) k) as [H|_]; [lia|].
  destruct (Z.ltb_spec (Z.of_N (array_limit engine)) k) as [H|_]; [lia|].
  cbn. unfold Array_reduce, sum_in_order. f_equal.
  rewrite <- (Z2Nat.id k) by lia.
  rewrite map_succ_seqZ by lia. reflexivity.
Qed.

Lemma sum_to_n_c_too_long (engine : memory) (k : Z) :
  2 ^ 32 <= k < 2 ^ 53 -> sum_to_n_c engine (num k) = Throw RangeError.
Proof.
  intros Hk. unfold sum_to_n_c, Array_from_length.
  rewrite ToLength_num by lia.
  destruct (Z.ltb_spec (2 ^ 32 - 1) k) as [_|H]; [reflexivity|lia].
Qed.

(** Above the limit of the engine no array is built. *)
Lemma sum_to_n_c_over_limit (engine : memory) (k : Z) :
  0 <= k < 2 ^ 53 -> Z.of_N (array_limit engine) < k ->
  exists e, sum_to_n_c engine (num k) = Throw e.
Proof.
  intros Hk Hlimit. unfold sum_to_n_c, Array_from_length.
  rewrite ToLength_num by lia.
  destruct (2 ^ 32 - 1 <? k); [eauto|].
  destruct (Z.ltb_spec (Z.of_N (array_limit engine)) k) as [_|H]; [|lia].
  destruct (exhausted engine k); eauto.
Qed.

(** While the partial sums stay below [2^53] the additions are exact. *)
Lemma fold_left_add_exact (l : list Z) :
  forall s, 0 <= s -> Forall (fun x => 0 <= x) l -> s + Zsum l < 2 ^ 53 ->
    fold_left add (map num l) (num s) = num (s + Zsum l).
Proof.
  induction l as [|x t IH]; intros s Hs Hl Hsum; cbn [map fold_left Zsum foldr].
  - now rewrite Z.add_0_r.
  - apply Forall_cons_iff in Hl as [Hx Ht].
    assert (0 <= Zsum t).
    { clear -Ht. induction Ht as [|y u Hy _ IHu]; simpl; lia. }
    cbn [Zsum foldr] in Hsum. fold (Zsum t) in Hsum.
    rewrite add_num by lia.
    rewrite IH by (auto; lia). fold (Zsum t). f_equal. lia.
Qed.

Lemma Zsum_seqZ (r : nat) :
  forall c, 2 * Zsum (seqZ c (Z.of_nat r))
            = Z.of_nat r * (2 * c + Z.of_nat r - 1).
Proof.
  induction r as [|r IH]; intros c; [reflexivity|].
  rewrite seqZ_cons by lia. cbn [Zsum foldr].
  replace (Z.pred (Z.of_nat (S r))) with (Z.of_nat r) by lia.
  fold (Zsum (seqZ (Z.succ c) (Z.of_nat r))).
  specialize (IH (Z.succ c)). nia.
Qed.

Lemma sum_in_order_exact (k : Z) :
  0 <= k -> k * (k + 1) / 2 < 2 ^ 53 ->
  sum_in_order k = num (k * (k + 1) / 2).
Proof.
  intros Hk Hs.
  assert (Hz : Zsum (seqZ 1 k) = k * (k + 1) / 2).
  { pose proof (Zsum_seqZ (Z.to_nat k) 1) as H.
    rewrite Z2Nat.id in H by lia.
    apply Z.div_unique_exact; lia. }
  unfold sum_in_order.
  rewrite (fold_left_add_exact (seqZ 1 k) 0); rewrite ?Hz; try lia.
  - reflexivity.
  - apply List.Forall_forall. intros x Hx.
    apply list_elem_of_In, elem_of_seqZ in Hx. lia.
Qed.

End SumFacts.

Section SumClaims.
Import SumToN SumFacts.

(** C9, as the code has it.  For every integer [n] from [0] up to the
    longest array that the engine builds, which has [2^32 - 1] elements at
    most, the three functions return the same number: the two loops
    whenever they are given more than [n] iterations, and the array
    version.  The number is the sum [1 + 2 + ... + n], which is [0] for
    [n = 0], when that sum is below [2^53].  For a larger integer [n]
    below [2^53] the loops return and the array version does not. *)
Theorem C9_sum_to_n_agree (engine : memory) (n : Z) :
  0 <= n < 2 ^ 53 - 1 ->
  (exists v,
     (forall fuel, (Z.to_nat n < fuel)%nat ->
        sum_to_n_a fuel (num n) = Some v) /\
     (forall fuel, (Z.to_nat n < fuel)%nat ->
        sum_to_n_b fuel (num n) = Some v) /\
     (n * (n + 1) / 2 < 2 ^ 53 -> v = num (n * (n + 1) / 2)) /\
     (n <= Z.min (2 ^ 32 - 1) (Z.of_N (array_limit engine)) ->
      sum_to_n_c engine (num n) = Normal v)) /\
  (Z.min (2 ^ 32 - 1) (Z.of_N (array_limit engine)) < n ->
   exists e, sum_to_n_c engine (num n) = Throw e).
Proof.
  intros Hn. split.
  - exists (sum_in_order n). repeat split.
    + intros fuel Hfuel. rewrite sum_to_n_a_b. apply sum_to_n_b_num; lia.
    + intros fuel Hfuel. apply sum_to_n_b_num; lia.
    + intros Hs. apply sum_in_order_exact; lia.
    + intros Hc. apply sum_to_n_c_num; lia.
  - intros Hc.
    destruct (Z.le_gt_cases (2 ^ 32) n) as [H|H].
    + exists RangeError. apply sum_to_n_c_too_long. lia.
    + apply sum_to_n_c_over_limit; lia.
Qed.

Lemma C9_witness :
  (exists v,
     (forall fuel, (Z.to_nat 10 < fuel)%nat ->
        sum_to_n_a fuel (num 10) = Some v) /\
     (forall fuel, (Z.to_nat 10 < fuel)%nat ->
        sum_to_n_b fuel (num 10) = Some v) /\
     (10 * (10 + 1) / 2 < 2 ^ 53 -> v = num (10 * (10 + 1) / 2)) /\
     (10 <= Z.min (2 ^ 32 - 1) (Z.of_N (array_limit unlimited)) ->
      sum_to_n_c unlimited (num 10) = Normal v)) /\
  (Z.min (2 ^ 32 - 1) (Z.of_N (array_limit unlimited)) < 10 ->
   exists e, sum_to_n_c unlimited (num 10) = Throw e).
Proof. apply (C9_sum_to_n_agree unlimited 10). lia. Defined.

(** C9, as stated, fails: for [n = 2^32] the two loops return a number (the
    same one) and the array version throws a RangeError on every engine,
    since no array has [2^32] elements. *)
Lemma C9_array_too_long :
  (exists v, forall fuel, (Z.to_nat (2 ^ 32) < fuel)%nat ->
     sum_to_n_a fuel (num (2 ^ 32)) = Some v /\
     sum_to_n_b fuel (num (2 ^ 32)) = Some v) /\
  forall engine : memory,
    sum_to_n_c engine (num (2 ^ 32)) = Throw RangeError.
Proof.
  split.
  - exists (sum_in_order (2 ^ 32)). intros fuel Hfuel.
    rewrite sum_to_n_a_b. split; apply sum_to_n_b_num; lia.
  - intros engine. apply sum_to_n_c_too_long. lia.
Qed.

End SumClaims.

(** * Further properties of the code *)

(** ** The two wallet pages side by side *)

Module WalletFacts.
Import OptimizedWalletPage OptimizedFacts.

(** The [switch] and the table give a chain with an ordinary name the
    same priority. *)
Lemma getPriority_agree (blockchain : string) :
  ordinary blockchain ->
  getPriority blockchain = Num (ProblematicWalletPage.getPriority blockchain).
Proof.
  intros Hord. unfold getPriority. rewrite (Get_ordinary _ _ Hord).
  unfold ProblematicWalletPage.getPriority, BLOCKCHAIN_PRIORITIES.
  repeat match goal with
         | |- context [String.eqb blockchain ?c] =>
             destruct (String.eqb_spec blockchain c) as [->|?];
             [reflexivity|rewrite lookup_insert_ne by congruence]
         end.
  reflexivity.
Qed.

(** The [switch] knows no inherited name. *)
Lemma switch_inherited (blockchain : string) (o : inherited) :
  Object_prototype blockchain = Some o ->
  ProblematicWalletPage.getPriority blockchain = num (-99).
Proof.
  unfold Object_prototype.
  repeat match goal with
         | |- context [String.eqb blockchain ?c] =>
             destruct (String.eqb_spec blockchain c) as [->|?]; [reflexivity|]
         end.
  discriminate.
Qed.

Lemma switch_cases (blockchain : string) :
  In (ProblematicWalletPage.getPriority blockchain) table_priorities.
Proof.
  unfold ProblematicWalletPage.getPriority, table_priorities.
  repeat match goal with
         | |- context [String.eqb blockchain ?c] =>
             destruct (String.eqb blockchain c); [simpl; tauto|]
         end.
  simpl; tauto.
Qed.

(** The comparator of the problematic page is consistent. *)
Lemma problematic_comparator_consistent (l : list WalletBalance.t) :
  consistent ProblematicWalletPage.comparator l.
Proof.
  intros a b c _ _ _.
  unfold tie, before, after, SortCompare, ProblematicWalletPage.comparator.
  pose proof (switch_cases (WalletBalance.blockchain a)) as Ha.
  pose proof (switch_cases (WalletBalance.blockchain b)) as Hb.
  pose proof (switch_cases (WalletBalance.blockchain c)) as Hc.
  revert Ha Hb Hc.
  generalize (ProblematicWalletPage.getPriority (WalletBalance.blockchain a)),
             (ProblematicWalletPage.getPriority (WalletBalance.blockchain b)),
             (ProblematicWalletPage.getPriority (WalletBalance.blockchain c)).
  intros p q r Hp Hq Hr.
  table_cases; subst p q r; vm_compute; repeat split; congruence.
Qed.

Lemma balancesWithPriority_map (balances : list WalletBalance.t) :
  balancesWithPriority balances = map with_priority balances.
Proof. reflexivity. Qed.

(** The two comparators put the same records strictly after each other. *)
Lemma after_comparators (x y : WalletBalance.t) :
  ordinary (WalletBalance.blockchain x) ->
  ordinary (WalletBalance.blockchain y) ->
  after ProblematicWalletPage.comparator x y
  = after comparator (with_priority x) (with_priority y).
Proof.
  intros Ox Oy.
  unfold after, SortCompare, ProblematicWalletPage.comparator, comparator,
    with_priority.
  cbn [PrioritizedBalance.priority].
  rewrite (getPriority_agree _ Ox), (getPriority_agree _ Oy).
  pose proof (switch_cases (WalletBalance.blockchain x)) as Hx.
  pose proof (switch_cases (WalletBalance.blockchain y)) as Hy.
  revert Hx Hy.
  generalize (ProblematicWalletPage.getPriority (WalletBalance.blockchain x)),
             (ProblematicWalletPage.getPriority (WalletBalance.blockchain y)).
  intros p q Hp Hq. table_cases; subst p q; vm_compute; reflexivity.
Qed.

Lemma sort_insert_with_priority (x : WalletBalance.t)
  (l : list WalletBalance.t) :
  ordinary (WalletBalance.blockchain x) ->
  Forall (fun b => ordinary (WalletBalance.blockchain b)) l ->
  map with_priority (sort_insert ProblematicWalletPage.comparator x l)
  = sort_insert comparator (with_priority x) (map with_priority l).
Proof.
  intros Ox Ol.
  induction Ol as [|y t Oy Ot IH]; [reflexivity|].
  cbn [sort_insert map].
  change (gt (SortCompare ProblematicWalletPage.comparator x y) (num 0))
    with (after ProblematicWalletPage.comparator x y).
  change (gt (SortCompare comparator (with_priority x) (with_priority y))
             (num 0))
    with (after comparator (with_priority x) (with_priority y)).
  rewrite (after_comparators x y Ox Oy).
  destruct (after comparator (with_priority x) (with_priority y));
    cbn [map]; [now rewrite IH|reflexivity].
Qed.

Lemma Array_sort_with_priority (l : list WalletBalance.t) :
  Forall (fun b => ordinary (WalletBalance.blockchain b)) l ->
  map with_priority (Array_sort ProblematicWalletPage.comparator l)
  = Array_sort comparator (map with_priority l).
Proof.
  induction 1 as [|x t Ox Ot IH]; [reflexivity|].
  cbn [Array_sort fold_right map].
  fold (Array_sort ProblematicWalletPage.comparator t).
  fold (Array_sort comparator (map with_priority t)).
  rewrite sort_insert_with_priority, IH; auto.
  now apply Array_sort_Forall.
Qed.

Lemma with_priority_resolved (l : list WalletBalance.t) :
  Forall (fun b => ordinary (WalletBalance.blockchain b)) l ->
  Forall resolved (map with_priority l).
Proof.
  intros Hl. apply List.Forall_map.
  eapply List.Forall_impl; [|exact Hl].
  intros b Hb. now apply getPriority_ordinary.
Qed.

Lemma sortedBalances_carries (sort : sort_fn) (Hsort : conforming sort)
  (balances : list WalletBalance.t) :
  Forall carries_priority (sortedBalances sort balances).
Proof.
  unfold sortedBalances. apply (sort_Forall sort Hsort).
  apply List.Forall_forall. intros b Hb. apply filter_In in Hb as [Hb _].
  apply in_map_iff in Hb as (x & <- & _). reflexivity.
Qed.

Lemma with_priority_without (b : PrioritizedBalance.t) :
  carries_priority b -> with_priority (without_priority b) = b.
Proof.
  destruct b as [c a bc p]. unfold carries_priority. cbn. intros ->.
  reflexivity.
Qed.

Lemma source_formatted_of (prices : gmap string number)
  (b : PrioritizedBalance.t) :
  source (formatted_of prices b) = without_priority b.
Proof. now destruct (formatted_of_eq prices b) as (s & _ & ->). Qed.

Lemma map_source_formatted_of (prices : gmap string number)
  (l : list PrioritizedBalance.t) :
  map source (map (formatted_of prices) l) = map without_priority l.
Proof.
  rewrite map_map. apply map_ext. intros b. apply source_formatted_of.
Qed.

Lemma without_priority_filtered (balances : list WalletBalance.t) :
  map without_priority
    (List.filter (fun balance => gt (PrioritizedBalance.amount balance) (num 0))
                 (balancesWithPriority balances))
  = List.filter (fun b => gt (WalletBalance.amount b) (num 0)) balances.
Proof.
  induction balances as [|b t IH]; [reflexivity|].
  cbn [balancesWithPriority map List.filter PrioritizedBalance.amount].
  fold (balancesWithPriority t).
  destruct (gt (WalletBalance.amount b) (num 0)); [|exact IH].
  cbn [map]. rewrite IH. now destruct b.
Qed.

Lemma filter_all {A : Type} (P : A -> bool) (l : list A) :
  Forall (fun x => P x = true) l -> List.filter P l = l.
Proof.
  induction 1 as [|x t Hx _ IH]; [reflexivity|].
  cbn [List.filter]. now rewrite Hx, IH.
Qed.

Lemma map_id_on {A : Type} (f : A -> A) (l : list A) :
  Forall (fun x => f x = x) l -> map f l = l.
Proof.
  induction 1 as [|x t Hx _ IH]; [reflexivity|].
  cbn [map]. now rewrite Hx, IH.
Qed.

(** The records of the output have ordinary chain names when those of
    the input with a positive amount have. *)
Lemma ordinary_chains_again (sort : sort_fn) (Hsort : conforming sort)
  (balances : list WalletBalance.t) :
  ordinary_chains balances ->
  ordinary_chains (map without_priority (sortedBalances sort balances)).
Proof.
  intros Hord. unfold ordinary_chains. apply List.Forall_map.
  unfold sortedBalances. apply (sort_Forall sort Hsort).
  apply List.Forall_forall. intros b Hb. apply filter_In in Hb as [Hb Hpos].
  apply in_map_iff in Hb as (x & <- & Hx). cbn. intros _.
  unfold ordinary_chains in Hord. rewrite List.Forall_forall in Hord.
  exact (Hord x Hx Hpos).
Qed.

(** The page on the records that it has returned. *)
Lemma sortedBalances_again (sort : sort_fn) (Hsort : conforming sort)
  (balances : list WalletBalance.t) :
  ordinary_chains balances ->
  sortedBalances sort (map without_priority (sortedBalances sort balances))
  = sortedBalances sort balances.
Proof.
  intros Hord.
  set (sorted := sortedBalances sort balances).
  unfold sortedBalances at 1.
  rewrite balancesWithPriority_map, map_map.
  rewrite (map_id_on (fun b => with_priority (without_priority b))).
  - rewrite filter_all by apply (sortedBalances_positive sort Hsort).
    apply (sort_sorted sort Hsort).
    + apply comparator_consistent.
      now apply (sortedBalances_resolved sort Hsort).
    + now apply (sortedBalances_order sort Hsort).
  - eapply List.Forall_impl; [|apply (sortedBalances_carries sort Hsort)].
    intros b. apply with_priority_without.
Qed.

End WalletFacts.

Section WalletProperties.
Import OptimizedWalletPage OptimizedFacts WalletFacts.

(** X1.  The [switch] of the problematic page and the table of the optimized
    page resolve a chain with an ordinary name, known or not, to the same
    priority.  To the name of a member of [Object.prototype] the [switch]
    gives [-99] and the table that member.  The priority test of the
    problematic filter, [balancePriority > -99], holds of exactly the
    chains that have an entry in the table. *)
Theorem getPriority_switch_is_table (blockchain : string) :
  (ordinary blockchain ->
   getPriority blockchain
   = Num (ProblematicWalletPage.getPriority blockchain)) /\
  (forall o, Object_prototype blockchain = Some o ->
     getPriority blockchain = Obj o /\
     ProblematicWalletPage.getPriority blockchain = num (-99)) /\
  (gt (ProblematicWalletPage.getPriority blockchain) (num (-99)) = true <->
   is_Some (BLOCKCHAIN_PRIORITIES !! blockchain)).
Proof.
  split; [apply getPriority_agree|]. split.
  - intros o Ho. split; [now apply getPriority_inherited|].
    now apply (switch_inherited blockchain o).
  - unfold ProblematicWalletPage.getPriority, BLOCKCHAIN_PRIORITIES.
    repeat match goal with
           | |- context [String.eqb blockchain ?c] =>
               destruct (String.eqb_spec blockchain c) as [->|?];
               [split; [eauto|reflexivity]
               |rewrite lookup_insert_ne by congruence]
           end.
    rewrite lookup_empty. split; [discriminate|].
    intros [p Hp]. discriminate Hp.
Qed.

(** X2.  On balances whose chains have ordinary names the comparator of the
    problematic page, which looks the priorities up at each comparison,
    sorts into the order that the comparator of the optimized page gives
    on the records with the priority attached, on every engine. *)
Theorem comparators_sort_alike (sort : sort_fn) (Hsort : conforming sort)
  (balances : list WalletBalance.t) :
  Forall (fun b => ordinary (WalletBalance.blockchain b)) balances ->
  balancesWithPriority (sort _ ProblematicWalletPage.comparator balances)
  = sort _ comparator (balancesWithPriority balances).
Proof.
  intros Hord. rewrite !balancesWithPriority_map.
  rewrite (sort_insertion sort Hsort)
    by apply problematic_comparator_consistent.
  rewrite (sort_insertion sort Hsort)
    by (apply comparator_consistent; now apply with_priority_resolved).
  now apply Array_sort_with_priority.
Qed.

Lemma comparators_sort_alike_witness :
  balancesWithPriority
    (insertion_sort _ ProblematicWalletPage.comparator mockBalances)
  = insertion_sort _ comparator (balancesWithPriority mockBalances).
Proof.
  apply (comparators_sort_alike insertion_sort insertion_sort_conforming
           mockBalances).
  repeat constructor.
Defined.

(** X3.  The optimized page neither loses nor duplicates nor alters a
    balance: the input records of its output are, up to their order, the
    balances with a positive amount. *)
Theorem output_is_the_positive_balances (sort : sort_fn)
  (Hsort : conforming sort) (balances : list WalletBalance.t)
  (prices : gmap string number) :
  exists out,
    formattedBalances sort balances prices = Normal out /\
    Permutation
      (List.filter (fun b => gt (WalletBalance.amount b) (num 0)) balances)
      (map source out).
Proof.
  eexists. split; [apply formattedBalances_Normal|].
  rewrite map_source_formatted_of, <- without_priority_filtered.
  apply Permutation_map. unfold sortedBalances.
  apply (sort_Permutation sort Hsort).
Qed.

Lemma output_is_the_positive_balances_witness :
  exists out,
    formattedBalances insertion_sort mockBalances mockPrices = Normal out /\
    Permutation
      (List.filter (fun b => gt (WalletBalance.amount b) (num 0)) mockBalances)
      (map source out).
Proof.
  exact (output_is_the_positive_balances insertion_sort
           insertion_sort_conforming mockBalances mockPrices).
Defined.

(** X4.  Every output record carries the priority of its own chain. *)
Theorem output_priority_of_chain (sort : sort_fn) (Hsort : conforming sort)
  (balances : list WalletBalance.t) (prices : gmap string number) :
  exists out,
    formattedBalances sort balances prices = Normal out /\
    Forall (fun f =>
              FormattedWalletBalance.priority f
              = getPriority (FormattedWalletBalance.blockchain f)) out.
Proof.
  eexists. split; [apply formattedBalances_Normal|].
  apply List.Forall_map.
  eapply List.Forall_impl; [|apply (sortedBalances_carries sort Hsort)].
  intros b Hb. cbn beta.
  destruct (formatted_of_eq prices b) as (s & _ & ->). exact Hb.
Qed.

Lemma output_priority_of_chain_witness :
  exists out,
    formattedBalances insertion_sort mockBalances mockPrices = Normal out /\
    Forall (fun f =>
              FormattedWalletBalance.priority f
              = getPriority (FormattedWalletBalance.blockchain f)) out.
Proof.
  exact (output_priority_of_chain insertion_sort insertion_sort_conforming
           mockBalances mockPrices).
Defined.

(** X5.  When the chains of the balances with a positive amount have
    ordinary names, the page is idempotent on every engine: given the
    balances of its own output, it returns that output again. *)
Theorem page_idempotent (sort : sort_fn) (Hsort : conforming sort)
  (balances : list WalletBalance.t) (prices : gmap string number) :
  ordinary_chains balances ->
  exists out,
    formattedBalances sort balances prices = Normal out /\
    formattedBalances sort (map source out) prices = Normal out.
Proof.
  intros Hord. eexists. split; [apply formattedBalances_Normal|].
  rewrite formattedBalances_Normal, map_source_formatted_of.
  now rewrite (sortedBalances_again sort Hsort).
Qed.

Lemma page_idempotent_witness :
  exists out,
    formattedBalances insertion_sort mockBalances mockPrices = Normal out /\
    formattedBalances insertion_sort (map source out) mockPrices = Normal out.
Proof.
  apply (page_idempotent insertion_sort insertion_sort_conforming
           mockBalances mockPrices).
  repeat constructor.
Defined.

End WalletProperties.

(** ** The rows of the pages *)

Module RowFacts.
Import OptimizedWalletPage OptimizedFacts.

Lemma Array_map_row (l : list FormattedWalletBalance.t) :
  exists rs, Array_map OptimizedRows.row l = Normal rs /\ Forall2 row_for l rs.
Proof.
  induction l as [|f t (rs & Hrs & Hall)].
  - exists []. split; [reflexivity|constructor].
  - destruct (toFixed_2_Normal (FormattedWalletBalance.usdValue f)) as [s Hs].
    eexists (_ :: rs). cbn [Array_map]. rewrite Hrs.
    unfold OptimizedRows.row. rewrite Hs. split; [reflexivity|]. constructor; [|exact Hall].
    exists s. split; [exact Hs|reflexivity].
Qed.

Lemma Forall2_map_eq {A B C : Type} (g : B -> C) (h : A -> C) (l : list A)
  (rs : list B) :
  Forall2 (fun a b => g b = h a) l rs -> map g rs = map h l.
Proof. induction 1; cbn [map]; congruence. Qed.

(** The key of a row determines the chain and the currency when the chain
    has no dash. *)
Lemma key_inj (b1 c1 b2 c2 : string) :
  lacks "-" b1 = true -> lacks "-" b2 = true ->
  String.append b1 (String.append "-" c1)
  = String.append b2 (String.append "-" c2) ->
  b1 = b2 /\ c1 = c2.
Proof.
  revert b2. induction b1 as [|a b1 IH]; intros [|a' b2] H1 H2 Heq.
  - change (String "-" c1 = String "-" c2) in Heq.
    injection Heq as ->. auto.
  - change (String "-" c1
            = String a' (String.append b2 (String.append "-" c2))) in Heq.
    injection Heq as <- _. cbn in H2. discriminate H2.
  - change (String a (String.append b1 (String.append "-" c1))
            = String "-" c2) in Heq.
    injection Heq as -> _. cbn in H1. discriminate H1.
  - change (String a (String.append b1 (String.append "-" c1))
            = String a' (String.append b2 (String.append "-" c2))) in Heq.
    injection Heq as <- Heq.
    cbn [lacks] in H1, H2.
    apply andb_prop in H1 as [_ H1]. apply andb_prop in H2 as [_ H2].
    destruct (IH b2 H1 H2 Heq) as [-> ->]. auto.
Qed.

Lemma NoDup_map_on {A B C : Type} (f : A -> B) (g : A -> C) (l : list A) :
  (forall x y, In x l -> In y l -> g x = g y -> f x = f y) ->
  List.NoDup (map f l) -> List.NoDup (map g l).
Proof.
  induction l as [|x t IH]; intros Hfg Hf; cbn [map] in *; [constructor|].
  apply NoDup_cons_iff in Hf as [Hx Ht]. constructor.
  - intros Hin. apply Hx.
    apply in_map_iff in Hin as (y & Hy & Hin).
    apply in_map_iff. exists y. split; [|exact Hin].
    apply Hfg; [now right|now left|exact Hy].
  - apply IH; [|exact Ht]. intros a b Ha Hb. apply Hfg; now right.
Qed.

Lemma Forall2_with_left {A B : Type} (P : A -> Prop) (R : A -> B -> Prop)
  (l : list A) (k : list B) :
  Forall P l -> Forall2 R l k -> Forall2 (fun a b => P a /\ R a b) l k.
Proof.
  intros HP HR. induction HR as [|a b l k Hab _ IH]; [constructor|].
  apply Forall_cons_iff in HP as [Ha HP]. constructor; auto.
Qed.

Lemma Forall2_map_left {A B C : Type} (f : A -> B) (R : B -> C -> Prop)
  (l : list A) (k : list C) :
  Forall2 R (map f l) k <-> Forall2 (fun a c => R (f a) c) l k.
Proof.
  revert k. induction l as [|a l IH]; intros k; cbn [map].
  - split; inversion 1; constructor.
  - split; inversion 1; subst; constructor; auto; now apply IH.
Qed.

(** What the callback of [rows] returns on the problematic page. *)
Lemma Array_map_from_row (prices : gmap string number)
  (l : list WalletBalance.t) :
  forall index, exists rs,
    Array_map_from (ProblematicRows.row prices) index l = Normal rs /\
    length rs = length l /\
    forall j b, l !! j = Some b ->
      exists amount usd,
        toFixed (WalletBalance.amount b) 2 = Normal amount /\
        toFixed (mul (ToNumber (Get prices (WalletBalance.currency b)))
                     (WalletBalance.amount b)) 2 = Normal usd /\
        rs !! j = Some (ProblematicRows.make (index + j)
                          (WalletBalance.currency b) amount
                          (WalletBalance.blockchain b) usd).
Proof.
  induction l as [|b t IH]; intros index.
  - exists []. split; [reflexivity|]. split; [reflexivity|].
    intros j b Hj. discriminate Hj.
  - destruct (IH (S index)) as (rs & Hrs & Hlen & Hall).
    destruct (toFixed_2_Normal (WalletBalance.amount b)) as [sa Ha].
    destruct (toFixed_2_Normal
                (mul (ToNumber (Get prices (WalletBalance.currency b)))
                     (WalletBalance.amount b))) as [su Hu].
    eexists (_ :: rs). cbn [Array_map_from]. rewrite Hrs.
    unfold ProblematicRows.row. rewrite Ha, Hu.
    split; [reflexivity|]. split; [cbn [length]; congruence|].
    intros [|j] c Hj.
    + injection Hj as <-. exists sa, su.
      rewrite Nat.add_0_r. auto.
    + destruct (Hall j c Hj) as (sa' & su' & Ha' & Hu' & Hr).
      exists sa', su'. replace (index + S j)%nat with (S index + j)%nat by lia.
      auto.
Qed.

End RowFacts.

Section RowProperties.
Import OptimizedWalletPage OptimizedFacts WalletFacts RowFacts.

(** X6.  The keys of the rows of the optimized page are pairwise distinct
    when no two balances with a positive amount have the same chain and
    currency and no chain name of theirs has a dash. *)
Theorem row_keys_distinct (sort : sort_fn) (Hsort : conforming sort)
  (balances : list WalletBalance.t) (prices : gmap string number) :
  List.NoDup
    (map (fun b => (WalletBalance.blockchain b, WalletBalance.currency b))
       (List.filter (fun b => gt (WalletBalance.amount b) (num 0)) balances)) ->
  Forall (fun b => lacks "-" (WalletBalance.blockchain b) = true)
    (List.filter (fun b => gt (WalletBalance.amount b) (num 0)) balances) ->
  exists rows,
    OptimizedRows.rows sort balances prices = Normal rows /\
    List.NoDup (map OptimizedRows.key rows).
Proof.
  intros Hpairs Hdash.
  unfold OptimizedRows.rows. rewrite formattedBalances_Normal.
  cbn [mbind completion_bind].
  destruct (Array_map_row
              (map (formatted_of prices) (sortedBalances sort balances)))
    as (rs & -> & Hall).
  exists rs. split; [reflexivity|].
  set (key_of := fun c : WalletBalance.t =>
         String.append (WalletBalance.blockchain c)
           (String.append "-" (WalletBalance.currency c))).
  rewrite (Forall2_map_eq OptimizedRows.key (fun f => key_of (source f))
             (map (formatted_of prices) (sortedBalances sort balances)) rs).
  2:{ eapply Forall2_impl; [exact Hall|].
      intros f r (usd & _ & ->). reflexivity. }
  rewrite <- (map_map source key_of), map_source_formatted_of.
  eapply Permutation_NoDup.
  { apply Permutation_map, Permutation_map. unfold sortedBalances.
    apply (sort_Permutation sort Hsort). }
  rewrite without_priority_filtered.
  revert Hpairs. apply NoDup_map_on. intros x y Hx Hy Hk.
  rewrite List.Forall_forall in Hdash.
  destruct (key_inj _ _ _ _ (Hdash x Hx) (Hdash y Hy) Hk) as [-> ->].
  reflexivity.
Qed.

Lemma row_keys_distinct_witness :
  exists rows,
    OptimizedRows.rows insertion_sort mockBalances mockPrices = Normal rows /\
    List.NoDup (map OptimizedRows.key rows).
Proof.
  apply (row_keys_distinct insertion_sort insertion_sort_conforming
           mockBalances mockPrices).
  - vm_compute.
    repeat (constructor; [simpl; intuition discriminate|]). constructor.
  - vm_compute. repeat constructor.
Defined.

(** X7.  Each row of the optimized page shows the values of one output
    record, in the order of the output.  The row of a currency that has no
    price shows the USD value [0.00] when the currency is an ordinary name
    and the amount is finite, and [NaN] when the amount is infinite or the
    currency is the name of a member of [Object.prototype]. *)
Theorem row_without_price (sort : sort_fn) (Hsort : conforming sort)
  (balances : list WalletBalance.t) (prices : gmap string number) :
  exists out rows,
    formattedBalances sort balances prices = Normal out /\
    OptimizedRows.rows sort balances prices = Normal rows /\
    Forall2
      (fun f r =>
         OptimizedRows.currency r = FormattedWalletBalance.currency f /\
         OptimizedRows.formatted r = FormattedWalletBalance.formatted f /\
         OptimizedRows.blockchain r = FormattedWalletBalance.blockchain f /\
         OptimizedRows.priority r = FormattedWalletBalance.priority f /\
         toFixed (FormattedWalletBalance.usdValue f) 2
           = Normal (OptimizedRows.usdValue r) /\
         (prices !! FormattedWalletBalance.currency f = None ->
          OptimizedRows.usdValue r
          = match Object_prototype (FormattedWalletBalance.currency f) with
            | None =>
                if isFinite (FormattedWalletBalance.amount f) then "0.00"
                else "NaN"
            | Some _ => "NaN"
            end))
      out rows.
Proof.
  unfold OptimizedRows.rows. rewrite formattedBalances_Normal.
  cbn [mbind completion_bind].
  destruct (Array_map_row
              (map (formatted_of prices) (sortedBalances sort balances)))
    as (rs & -> & Hall).
  eexists _, rs. split; [reflexivity|]. split; [reflexivity|].
  apply (proj2 (Forall2_map_left _ _ _ _)).
  apply (proj1 (Forall2_map_left _ _ _ _)) in Hall.
  eapply Forall2_impl;
    [exact (Forall2_with_left _ _ _ _
              (sortedBalances_positive sort Hsort balances) Hall)|].
  cbn beta. intros b r [Hb (usd & Husd & ->)].
  cbn [OptimizedRows.currency OptimizedRows.formatted OptimizedRows.blockchain
       OptimizedRows.priority OptimizedRows.usdValue].
  repeat (split; [reflexivity || exact Husd|]).
  revert Husd.
  destruct (formatted_of_eq prices b) as (s & _ & ->).
  cbn [FormattedWalletBalance.currency FormattedWalletBalance.amount
       FormattedWalletBalance.usdValue].
  intros Husd Hnone. revert Husd. unfold Get. rewrite Hnone.
  destruct (Object_prototype (PrioritizedBalance.currency b));
    cbn [coalesce ToNumber];
    destruct (PrioritizedBalance.amount b) as [[|]|[|]| |[|] m e];
    try (vm_compute in Hb; discriminate Hb);
    vm_compute; congruence.
Qed.

Lemma row_without_price_witness :
  exists out rows,
    formattedBalances insertion_sort
      [WalletBalance.make "toString" (num 10) "Ethereum";
       WalletBalance.make "SWTH" (num 10) "Ethereum"] mockPrices
    = Normal out /\
    OptimizedRows.rows insertion_sort
      [WalletBalance.make "toString" (num 10) "Ethereum";
       WalletBalance.make "SWTH" (num 10) "Ethereum"] mockPrices
    = Normal rows /\
    map OptimizedRows.usdValue rows = ["NaN"; "0.00"].
Proof.
  destruct (row_without_price insertion_sort insertion_sort_conforming
              [WalletBalance.make "toString" (num 10) "Ethereum";
               WalletBalance.make "SWTH" (num 10) "Ethereum"] mockPrices)
    as (out & rows & Hout & Hrows & Hall).
  exists out, rows. split; [exact Hout|]. split; [exact Hrows|].
  vm_compute in Hout. injection Hout as <-.
  inversion Hall as [|f r l k (_ & _ & _ & _ & _ & H1) Hall1]; subst.
  inversion Hall1 as [|f' r' l' k' (_ & _ & _ & _ & _ & H2) Hall2]; subst.
  inversion Hall2; subst. cbn [map].
  specialize (H1 ltac:(vm_compute; reflexivity)).
  specialize (H2 ltac:(vm_compute; reflexivity)).
  rewrite H1, H2. reflexivity.
Defined.

(** X8.  The problematic page makes one row for each record that its filter
    keeps, with the position of the record as key, and the row of a
    currency that has no price shows the USD value [NaN]: the page has no
    fallback for it. *)
Theorem problematic_row_without_price (sort : sort_fn)
  (balances : list WalletBalance.t) (prices : gmap string number) :
  exists rows,
    ProblematicRows.rows sort balances prices = Normal rows /\
    length rows
    = length (ProblematicWalletPage.sortedBalances sort balances) /\
    forall index b,
      ProblematicWalletPage.sortedBalances sort balances !! index = Some b ->
      exists r,
        rows !! index = Some r /\
        ProblematicRows.key r = index /\
        ProblematicRows.currency r = WalletBalance.currency b /\
        ProblematicRows.blockchain r = WalletBalance.blockchain b /\
        toFixed (WalletBalance.amount b) 2
          = Normal (ProblematicRows.amount r) /\
        (prices !! WalletBalance.currency b = None ->
         ProblematicRows.usdValue r = "NaN").
Proof.
  unfold ProblematicRows.rows.
  destruct (Array_map_from_row prices
              (ProblematicWalletPage.sortedBalances sort balances) 0)
    as (rs & Hrs & Hlen & Hall).
  exists rs. split; [exact Hrs|]. split; [exact Hlen|].
  intros index b Hb.
  destruct (Hall index b Hb) as (sa & su & Ha & Hu & Hr).
  eexists. split; [exact Hr|]. cbn.
  repeat (split; [reflexivity || exact Ha|]).
  intros Hnone. rewrite (ToNumber_Get_None _ _ Hnone) in Hu.
  vm_compute in Hu. congruence.
Qed.

End RowProperties.

(** ** Signs, powers of two and the order of binary64 values *)

Section SignFacts.

Lemma shr_1_nonneg (mrs : shr_record) :
  0 <= shr_m mrs -> 0 <= shr_m (shr_1 mrs).
Proof.
  destruct mrs as [m r s]. destruct m as [|[p|p|]|p]; simpl; lia.
Qed.

Lemma shr_nonneg (mrs : shr_record) (e n : Z) :
  0 <= shr_m mrs -> 0 <= shr_m (fst (shr mrs e n)).
Proof.
  intros H. unfold shr. destruct n as [|p|p]; cbn [fst]; try exact H.
  rewrite iter_pos_iter.
  apply (Pos.iter_invariant p _ shr_1 (fun x => 0 <= shr_m x));
    [intros x; apply shr_1_nonneg|exact H].
Qed.

Lemma shr_fexp_nonneg (m e : Z) (l : location) :
  0 <= m -> 0 <= shr_m (fst (shr_fexp prec emax m e l)).
Proof.
  intros H. unfold shr_fexp. apply shr_nonneg.
  destruct l as [|[| |]]; exact H.
Qed.

Lemma round_nearest_even_nonneg (m : Z) (l : location) :
  0 <= m -> 0 <= round_nearest_even m l.
Proof.
  intros H. unfold round_nearest_even.
  destruct l as [|[| |]]; try destruct (Z.even m); lia.
Qed.

(** Rounding a non-negative mantissa gives a number of the sign that it
    was given, never NaN. *)
Lemma binary_round_aux_sign (s : bool) (m e : Z) (l : location) :
  0 <= m -> has_sign s (binary_round_aux prec emax s m e l).
Proof.
  intros H. unfold binary_round_aux.
  pose proof (shr_fexp_nonneg m e l H) as H1.
  destruct (shr_fexp prec emax m e l) as [mrs' e']. cbn [fst] in H1.
  pose proof (shr_fexp_nonneg
                (round_nearest_even (shr_m mrs') (loc_of_shr_record mrs'))
                e' loc_Exact
                (round_nearest_even_nonneg _ _ H1)) as H2.
  destruct (shr_fexp prec emax _ e' loc_Exact) as [mrs'' e'']. cbn [fst] in H2.
  destruct (shr_m mrs'') as [|p|p]; [reflexivity| |lia].
  destruct (e'' <=? emax - prec); reflexivity.
Qed.

Lemma binary_round_sign (s : bool) (m : positive) (e : Z) :
  has_sign s (binary_round prec emax s m e).
Proof.
  unfold binary_round. destruct (shl_align m e _) as [mz ez].
  apply binary_round_aux_sign. lia.
Qed.

Lemma binary_normalize_not_NaN (m e : Z) (szero : bool) :
  isNaN (binary_normalize prec emax m e szero) = false.
Proof.
  unfold binary_normalize. destruct m as [|p|p]; [reflexivity| |].
  - pose proof (binary_round_sign false p e) as H.
    destruct (binary_round prec emax false p e); [reflexivity..|destruct H|reflexivity].
  - pose proof (binary_round_sign true p e) as H.
    destruct (binary_round prec emax true p e); [reflexivity..|destruct H|reflexivity].
Qed.

(** A negative integer is a number with the sign bit set. *)
Lemma num_negative (k : Z) : k < 0 -> has_sign true (num k).
Proof.
  intros Hk. destruct k as [|p|p]; try lia.
  apply binary_round_sign.
Qed.

(** Adding a finite number to a number that is not NaN does not give NaN. *)
Lemma add_finite_not_NaN (x : number) (s : bool) (m : positive) (e : Z) :
  isNaN x = false -> isNaN (add x (S754_finite s m e)) = false.
Proof.
  destruct x as [t|t| |t n f]; intros H; try discriminate H; try reflexivity.
  unfold add, SFadd. apply binary_normalize_not_NaN.
Qed.

(** The quotient of two finite numbers is not NaN unless both are zero. *)
Lemma div_finite_not_NaN (s t : bool) (m n : positive) (e f : Z) :
  isNaN (div (S754_finite s m e) (S754_finite t n f)) = false.
Proof.
  unfold div, SFdiv, SFdiv_core_binary.
  set (m' := match _ with 0 => Z.pos m | Z.pos _ => _ | Z.neg _ => 0 end).
  assert (Hm' : 0 <= m').
  { unfold m'. destruct (_ - _) as [|p|p]; try lia.
    apply Z.shiftl_nonneg. lia. }
  pose proof (Z_div_mod m' (Z.pos n) eq_refl) as Hdiv.
  change IntDef.Z.div_eucl with Z.div_eucl.
  destruct (Z.div_eucl m' (Z.pos n)) as [q r].
  assert (Hq : 0 <= q) by nia.
  pose proof (binary_round_aux_sign (xorb s t) q
                (Z.min (fexp prec emax
                          (Zdigits2 (Z.pos m) + e - (Zdigits2 (Z.pos n) + f)))
                       (e - f))
                (new_location (Z.pos n) r) Hq) as H.
  destruct (binary_round_aux _ _ _ _ _ _); [reflexivity..|destruct H|reflexivity].
Qed.

(** *** Powers of two *)

(** Rounding a canonical mantissa with zero bits appended. *)
Lemma binary_round_aux_shift (s : bool) (m k : positive) (e : Z) :
  Z.pos (digits2_pos m) = 53 -> -1074 <= e + Z.pos k ->
  binary_round_aux prec emax s (Z.pos (Pos.iter xO m k)) e loc_Exact
  = if e + Z.pos k <=? 971 then S754_finite s m (e + Z.pos k)
    else S754_infinity s.
Proof.
  intros Hd He.
  assert (HdM : Z.pos (digits2_pos (Pos.iter xO m k)) = 53 + Z.pos k).
  { rewrite (digits2_pos_shift (Pos.iter xO m k) m (Z.pos k));
      [lia|lia|apply iter_xO_value]. }
  unfold binary_round_aux, shr_fexp, Zdigits2. rewrite HdM.
  replace (fexp prec emax (53 + Z.pos k + e) - e) with (Z.pos k)
    by (unfold fexp, emin, prec, emax; lia).
  cbn [shr shr_record_of_loc]. rewrite shr_1_iter_xO.
  cbn [shr_m loc_of_shr_record round_nearest_even]. rewrite Hd.
  replace (fexp prec emax (53 + (e + Z.pos k)) - (e + Z.pos k)) with 0
    by (unfold fexp, emin, prec, emax; lia).
  cbn [shr shr_m]. reflexivity.
Qed.

Lemma num_pow2 (k : Z) :
  0 <= k ->
  num (2 ^ k) = if k <=? 1023 then S754_finite false 4503599627370496 (k - 52)
                else S754_infinity false.
Proof.
  intros Hk.
  assert (Hp : 0 < 2 ^ k) by (apply Z.pow_pos_nonneg; lia).
  destruct (2 ^ k) as [|P|P] eqn:HP; try lia.
  assert (Hd : Z.pos (digits2_pos P) = k + 1).
  { apply digits2_pos_unique. rewrite <- HP.
    replace (k + 1 - 1) with k by lia. rewrite Z.pow_add_r by lia. lia. }
  unfold num, binary_normalize, binary_round. rewrite Hd.
  replace (fexp prec emax (k + 1 + 0)) with (k - 52)
    by (unfold fexp, emin, prec, emax; lia).
  unfold shl_align. rewrite Z.sub_0_r.
  destruct (k - 52) as [|j|j] eqn:Hj.
  - assert (k = 52) by lia. subst k.
    assert (P = 4503599627370496%positive) as ->
        by (apply Pos2Z.inj; rewrite <- HP; reflexivity).
    reflexivity.
  - assert (P = Pos.iter xO 4503599627370496%positive j) as ->.
    { apply iter_xO_eq. rewrite <- HP. replace k with (52 + Z.pos j) by lia.
      rewrite Z.pow_add_r by lia. reflexivity. }
    rewrite binary_round_aux_shift by (reflexivity || lia).
    replace (0 + Z.pos j) with (k - 52) by lia.
    destruct (Z.leb_spec (k - 52) 971), (Z.leb_spec k 1023);
      try lia; rewrite ?Hj; reflexivity.
  - assert (Pos.iter xO P j = 4503599627370496%positive) as ->.
    { apply Pos2Z.inj. rewrite iter_xO_value, <- HP, <- Z.pow_add_r by lia.
      replace (k + Z.pos j) with 52 by lia. reflexivity. }
    rewrite binary_round_aux_canonical by (reflexivity || lia).
    destruct (Z.leb_spec k 1023); [reflexivity|lia].
Qed.

(** *** The order *)

(** [<=] is transitive from two positive finite numbers on. *)
Lemma le_trans_finite (m1 m2 : positive) (e1 e2 : Z) (n : number) :
  le (S754_finite false m1 e1) (S754_finite false m2 e2) = true ->
  le (S754_finite false m2 e2) n = true ->
  le (S754_finite false m1 e1) n = true.
Proof.
  destruct n as [t|[|]| |[|] m3 e3]; try (intros _ H; exact H || reflexivity).
  unfold le, SFleb, SFcompare. rewrite !Pos.compare_cont_spec.
  cbn [Pos.switch_Eq].
  destruct (Z.compare_spec e1 e2), (Z.compare_spec e2 e3),
    (Z.compare_spec e1 e3); try lia; try (intros; congruence || reflexivity);
    destruct (Pos.compare_spec m1 m2), (Pos.compare_spec m2 m3),
      (Pos.compare_spec m1 m3); try lia; intros; congruence || reflexivity.
Qed.

End SignFacts.

(** ** The three sums outside the integers from [0] to [2^32 - 1] *)

Module SumEdgeFacts.
Import SumToN SumFacts.

Lemma le_one_not_positive (n : number) :
  isNaN n = true \/ has_sign true n -> le (num 1) n = false.
Proof.
  destruct n as [[|]|[|]| |[|] m e]; intros [H|H];
    try discriminate H; try reflexivity.
Qed.

Lemma ToLength_not_positive (n : number) :
  isNaN n = true \/ has_sign true n -> ToLength n = 0.
Proof.
  destruct n as [[|]|[|]| |[|] m e]; intros [H|H];
    try discriminate H; try reflexivity.
Qed.

(** A loop whose condition holds on an invariant never ends. *)
Lemma while_loop_forever {S : Type} (cond : S -> bool) (body : S -> S)
  (Inv : S -> Prop) :
  (forall s, Inv s -> cond s = true /\ Inv (body s)) ->
  forall fuel s, Inv s -> while_loop fuel cond body s = None.
Proof.
  intros Hstep. induction fuel as [|fuel IH]; intros s Hs; [reflexivity|].
  cbn [while_loop]. destruct (Hstep s Hs) as [-> Hs']. now apply IH.
Qed.

(** The counter of the loops counts up to [2^53] and stays there. *)
Lemma counter_step (c : Z) :
  1 <= c <= 2 ^ 53 ->
  exists c', 1 <= c' <= 2 ^ 53 /\ add (num c) (num 1) = num c'.
Proof.
  intros Hc.
  destruct (Z.eq_dec c (2 ^ 53)) as [->|H1];
    [exists (2 ^ 53); split; [lia|vm_compute; reflexivity]|].
  destruct (Z.eq_dec c (2 ^ 53 - 1)) as [->|H2];
    [exists (2 ^ 53); split; [lia|vm_compute; reflexivity]|].
  exists (c + 1). split; [lia|]. apply add_num; lia.
Qed.

Lemma counter_below (c : Z) (n : number) :
  1 <= c <= 2 ^ 53 -> le (num (2 ^ 53)) n = true -> le (num c) n = true.
Proof.
  intros Hc Hn.
  destruct (Z.eq_dec c (2 ^ 53)) as [->|H1]; [exact Hn|].
  assert (Hle : le (num c) (num (2 ^ 53 - 1)) = true).
  { rewrite le_num by lia. apply Z.leb_le. lia. }
  destruct c as [|p|p]; try lia.
  destruct (num_pos p) as (m & _ & Hp); [lia|]. rewrite Hp in *.
  change (num (2 ^ 53)) with (S754_finite false 4503599627370496 1) in Hn.
  change (num (2 ^ 53 - 1)) with (S754_finite false 9007199254740991 0) in Hle.
  eapply le_trans_finite; [|exact Hn].
  eapply le_trans_finite; [exact Hle|reflexivity].
Qed.

Lemma sum_to_n_b_forever (n : number) (fuel : nat) :
  le (num (2 ^ 53)) n = true -> sum_to_n_b fuel n = None.
Proof.
  intros Hn. unfold sum_to_n_b.
  rewrite (while_loop_forever _ _
             (fun v => exists c, 1 <= c <= 2 ^ 53 /\ i v = num c));
    [reflexivity| |exists 1; split; [lia|reflexivity]].
  intros v (c & Hc & Hi). cbn [i sum]. rewrite Hi. split.
  - now apply counter_below.
  - destruct (counter_step c Hc) as (c' & Hc' & ->). now exists c'.
Qed.

(** The length of a binary64 value from [2^53] on. *)
Lemma ToLength_large (n : number) :
  is_binary64 n = true -> le (num (2 ^ 53)) n = true ->
  ToLength n = 2 ^ 53 - 1.
Proof.
  change (num (2 ^ 53)) with (S754_finite false 4503599627370496 1).
  destruct n as [t|[|]| |[|] m e]; intros Hv Hn;
    try discriminate Hn; [reflexivity|].
  assert (He : 1 <= e).
  { unfold le, SFleb, SFcompare in Hn.
    destruct (Z.compare_spec 1 e); try lia; discriminate Hn. }
  unfold is_binary64, valid_binary, bounded, canonical_mantissa in Hv.
  apply andb_prop in Hv as [Hv _]. apply Z.eqb_eq in Hv.
  unfold fexp, emin, prec, emax in Hv.
  assert (Hd : Z.pos (digits2_pos m) = 53) by lia.
  pose proof (digits2_pos_le m) as Hm. rewrite Hd in Hm.
  unfold ToLength. destruct (Z.leb_spec 0 e) as [_|]; [|lia].
  assert (2 ^ 1 <= 2 ^ e) by (apply Z.pow_le_mono_r; lia).
  change (2 ^ (53 - 1)) with 4503599627370496 in Hm.
  change (2 ^ 1) with 2 in H.
  change (2 ^ 53 - 1) with 9007199254740991.
  apply Z.min_r. nia.
Qed.

End SumEdgeFacts.

Section SumEdgeProperties.
Import SumToN SumFacts SumEdgeFacts.

(** X9.  For NaN, for [-0] and for every negative number, [-Infinity]
    included, the three functions return [0] on every engine: the loops do
    not run their body and the array is empty. *)
Theorem sum_to_n_not_positive (n : number) :
  isNaN n = true \/ has_sign true n ->
  (forall fuel, (0 < fuel)%nat ->
     sum_to_n_a fuel n = Some (num 0) /\ sum_to_n_b fuel n = Some (num 0)) /\
  forall engine : memory, sum_to_n_c engine n = Normal (num 0).
Proof.
  intros Hn. split.
  - intros [|fuel] Hfuel; [lia|]. rewrite sum_to_n_a_b.
    unfold sum_to_n_b. cbn [while_loop i].
    rewrite (le_one_not_positive n Hn). split; reflexivity.
  - intros engine. unfold sum_to_n_c, Array_from_length.
    rewrite (ToLength_not_positive n Hn). cbv zeta.
    change (2 ^ 32 - 1 <? 0) with false. cbv iota.
    destruct (Z.ltb_spec (Z.of_N (array_limit engine)) 0) as [H|_]; [lia|].
    reflexivity.
Qed.

Lemma sum_to_n_not_positive_witness :
  (forall fuel, (0 < fuel)%nat ->
     sum_to_n_a fuel (num (-5)) = Some (num 0) /\
     sum_to_n_b fuel (num (-5)) = Some (num 0)) /\
  forall engine : memory, sum_to_n_c engine (num (-5)) = Normal (num 0).
Proof. apply (sum_to_n_not_positive (num (-5))). right. reflexivity. Defined.

(** X10.  From [n = 2^53] on, [Infinity] included, the two loops never
    end, since their counter stays at [2^53], whose successor is not a
    binary64 value; the array version throws a RangeError on every
    engine. *)
Theorem sum_to_n_from_2_pow_53 (n : number) :
  is_binary64 n = true -> le (num (2 ^ 53)) n = true ->
  (forall fuel, sum_to_n_a fuel n = None /\ sum_to_n_b fuel n = None) /\
  forall engine : memory, sum_to_n_c engine n = Throw RangeError.
Proof.
  intros Hv Hn. split.
  - intros fuel. rewrite sum_to_n_a_b. split; now apply sum_to_n_b_forever.
  - intros engine. unfold sum_to_n_c, Array_from_length.
    rewrite (ToLength_large n Hv Hn). reflexivity.
Qed.

Lemma sum_to_n_from_2_pow_53_witness :
  (forall fuel, sum_to_n_a fuel (num (2 ^ 53)) = None /\
                sum_to_n_b fuel (num (2 ^ 53)) = None) /\
  forall engine : memory, sum_to_n_c engine (num (2 ^ 53)) = Throw RangeError.
Proof. apply (sum_to_n_from_2_pow_53 (num (2 ^ 53))); reflexivity. Defined.

End SumEdgeProperties.

(** ** The currency swap form *)

Module SwapFacts.
Import CurrencySwap.

(** The loop of [priceMap] leaves the entry of a currency that the list
    does not have. *)
Lemma fold_left_insert_absent (data : list PriceItem)
  (m : gmap string number) (c : string) :
  Forall (fun item => currency item <> c) data ->
  fold_left (fun priceMap item =>
               if String.eqb (currency item) "__proto__" then priceMap
               else <[currency item := price item]> priceMap)
            data m !! c
  = m !! c.
Proof.
  intros H. revert m. induction H as [|x t Hx _ IH]; intros m; [reflexivity|].
  cbn [fold_left]. rewrite IH.
  destruct (String.eqb (currency x) "__proto__"); [reflexivity|].
  now apply lookup_insert_ne.
Qed.

(** It makes no entry under the name [__proto__]. *)
Lemma fold_left_insert_proto (data : list PriceItem)
  (m : gmap string number) :
  fold_left (fun priceMap item =>
               if String.eqb (currency item) "__proto__" then priceMap
               else <[currency item := price item]> priceMap)
            data m !! "__proto__"
  = m !! "__proto__".
Proof.
  revert m. induction data as [|x t IH]; intros m; [reflexivity|].
  cbn [fold_left]. rewrite IH.
  destruct (String.eqb_spec (currency x) "__proto__") as [_|Hne];
    [reflexivity|].
  now apply lookup_insert_ne.
Qed.

Lemma or_else_no_price (prices : gmap string number) (token : Token) :
  no_price prices token ->
  or_else (Get prices (symbol token)) (Num (num 0)) = Num (num 0).
Proof.
  unfold no_price, Get, ordinary.
  destruct (prices !! symbol token) as [p|].
  - unfold or_else. cbn [truthy]. now intros ->.
  - now intros ->.
Qed.

Lemma or_else_price (p : number) :
  ToBoolean p = true -> or_else (Num p) (Num (num 0)) = Num p.
Proof. unfold or_else. cbn [truthy]. now intros ->. Qed.

Lemma priceMap_absent (data : list PriceItem) (c : string) :
  Forall (fun item => currency item <> c) data -> priceMap data !! c = None.
Proof.
  intros H. unfold priceMap. rewrite fold_left_insert_absent by exact H.
  apply lookup_empty.
Qed.

Lemma priceMap_proto (data : list PriceItem) :
  priceMap data !! "__proto__" = None.
Proof. unfold priceMap. rewrite fold_left_insert_proto. apply lookup_empty. Qed.

Lemma getExchangeRate_no_price (prices : gmap string number)
  (from to : Token) :
  no_price prices from \/ no_price prices to ->
  getExchangeRate prices from to = num 0.
Proof.
  unfold getExchangeRate. intros [H|H]; rewrite (or_else_no_price _ _ H).
  - reflexivity.
  - change (strict_eq_value (Num (num 0)) (Num (num 0))) with true.
    now rewrite orb_true_r.
Qed.

(** The rate of two tokens with a price that is neither zero nor NaN. *)
Lemma getExchangeRate_prices (prices : gmap string number)
  (from to : Token) (fromPrice toPrice : number) :
  prices !! symbol from = Some fromPrice ->
  prices !! symbol to = Some toPrice ->
  ToBoolean fromPrice = true -> ToBoolean toPrice = true ->
  getExchangeRate prices from to = div toPrice fromPrice.
Proof.
  intros Hf Ht Hbf Hbt. unfold getExchangeRate.
  rewrite (Get_own _ _ _ Hf), (Get_own _ _ _ Ht), !or_else_price
    by assumption.
  cbn [strict_eq_value ToNumber].
  destruct fromPrice as [s|s| |s m e], toPrice as [t|t| |t n f];
    try discriminate Hbf; try discriminate Hbt;
    try destruct s; try destruct t; reflexivity.
Qed.

(** The symbols of the tokens of the form are ordinary names. *)
Lemma TOKENS_ordinary :
  Forall (fun token => ordinary (symbol token)) TOKENS.
Proof. repeat constructor. Qed.

(** The delay from the sixth attempt on. *)
Lemma retryDelay_capped (attemptIndex : nat) :
  (5 <= attemptIndex)%nat -> retryDelay attemptIndex = num 30000.
Proof.
  intros Hk. unfold retryDelay, pow2.
  rewrite num_pow2 by lia.
  change (num 1000) with (S754_finite false 8796093022208000 (-43)).
  change (num 30000) with (S754_finite false 8246337208320000 (-38)).
  destruct (Z.leb_spec (Z.of_nat attemptIndex) 1023) as [Hs|Hs];
    [|reflexivity].
  unfold mul, SFmul. cbn [xorb].
  change (8796093022208000 * 4503599627370496)%positive
    with (Pos.iter xO 8796093022208000%positive 52).
  rewrite binary_round_aux_shift by (reflexivity || lia).
  destruct (_ <=? 971); [|reflexivity].
  unfold Math_min. cbn [isNaN orb].
  unfold lt, SFltb, SFcompare.
  destruct (Z.compare_spec (-38) (-43 + (Z.of_nat attemptIndex - 52) + 52))
    as [He|He|He]; try lia; reflexivity.
Qed.

End SwapFacts.

Section SwapProperties.
Import CurrencySwap SwapFacts.

(** X11.  The price of a currency in the price map is the price of the
    last item of the list that has this currency; the items before it do
    not count.  The name [__proto__] is no currency of the map. *)
Theorem priceMap_last_wins (before after : list PriceItem) (item : PriceItem) :
  currency item <> "__proto__" ->
  Forall (fun later => currency later <> currency item) after ->
  priceMap (before ++ item :: after) !! currency item = Some (price item).
Proof.
  intros Hproto H. unfold priceMap. rewrite fold_left_app. cbn [fold_left].
  rewrite fold_left_insert_absent by exact H.
  destruct (String.eqb_spec (currency item) "__proto__") as [Heq|_];
    [contradiction|].
  apply lookup_insert_eq.
Qed.

Lemma priceMap_last_wins_witness :
  priceMap ([Build_PriceItem "ETH" (num 1600)]
            ++ Build_PriceItem "ETH" (num 1700)
               :: [Build_PriceItem "USD" (num 1)])
    !! "ETH"
  = Some (num 1700).
Proof.
  apply (priceMap_last_wins
           [Build_PriceItem "ETH" (num 1600)]
           [Build_PriceItem "USD" (num 1)]
           (Build_PriceItem "ETH" (num 1700))).
  - discriminate.
  - repeat constructor. discriminate.
Defined.

(** X12.  The price map has a price for exactly the currencies of the
    list, the name [__proto__] aside, for which it never has one. *)
Theorem priceMap_domain (data : list PriceItem) (c : string) :
  priceMap data !! c = None <->
  c = "__proto__" \/ Forall (fun item => currency item <> c) data.
Proof.
  split; [|intros [->|H]; [apply priceMap_proto|now apply priceMap_absent]].
  destruct (String.eqb_spec c "__proto__") as [Hc|Hc]; [now left|].
  intros H. right. revert H.
  unfold priceMap. induction data as [|x t IH] using rev_ind; [constructor|].
  rewrite fold_left_app. cbn [fold_left]. intros H.
  destruct (String.eqb_spec (currency x) "__proto__") as [Hx|Hx].
  - apply Forall_app. split; [now apply IH|].
    constructor; [congruence|constructor].
  - destruct (String.eqb_spec (currency x) c) as [Heq|Hne].
    + rewrite Heq, lookup_insert_eq in H. discriminate H.
    + rewrite lookup_insert_ne in H by exact Hne.
      apply Forall_app. split; [now apply IH|]. now constructor.
Qed.

(** X13.  The exchange rate is [0] as soon as one of the two tokens has no
    usable price: a price of zero or NaN, or no price at all under a
    symbol that is an ordinary name. *)
Theorem getExchangeRate_zero (prices : gmap string number)
  (selectedFromToken selectedToToken : Token) :
  no_price prices selectedFromToken \/ no_price prices selectedToToken ->
  getExchangeRate prices selectedFromToken selectedToToken = num 0.
Proof.
  unfold getExchangeRate. intros [H|H].
  - rewrite (or_else_no_price _ _ H). reflexivity.
  - rewrite (or_else_no_price prices selectedToToken H).
    change (strict_eq_value (Num (num 0)) (Num (num 0))) with true.
    now rewrite orb_true_r.
Qed.

Lemma getExchangeRate_zero_witness :
  getExchangeRate (<["ETH" := num 1600]> ∅)
    (Build_Token "ETH" "Ethereum" "ETH.svg")
    (Build_Token "LUNA" "Terra" "LUNA.svg")
  = num 0.
Proof. apply getExchangeRate_zero. right. reflexivity. Defined.

(** X14.  When both tokens have a price that is neither zero nor NaN, the
    rate is the price of the target token divided by the price of the
    source token, and for finite prices it is not NaN. *)
Theorem getExchangeRate_quotient (prices : gmap string number)
  (selectedFromToken selectedToToken : Token) (fromPrice toPrice : number) :
  prices !! symbol selectedFromToken = Some fromPrice ->
  prices !! symbol selectedToToken = Some toPrice ->
  ToBoolean fromPrice = true -> ToBoolean toPrice = true ->
  getExchangeRate prices selectedFromToken selectedToToken
  = div toPrice fromPrice /\
  (isFinite fromPrice = true -> isFinite toPrice = true ->
   isNaN (getExchangeRate prices selectedFromToken selectedToToken) = false).
Proof.
  intros Hf Ht Hbf Hbt.
  assert (Heq : getExchangeRate prices selectedFromToken selectedToToken
                = div toPrice fromPrice)
    by now apply getExchangeRate_prices.
  split; [exact Heq|]. rewrite Heq.
  destruct fromPrice as [s|s| |s m e], toPrice as [t|t| |t n f];
    try discriminate Hbf; try discriminate Hbt; try discriminate.
  intros _ _. apply div_finite_not_NaN.
Qed.

Lemma getExchangeRate_quotient_witness :
  getExchangeRate (<["ETH" := num 1600]> (<["USD" := num 1]> ∅))
    (Build_Token "ETH" "Ethereum" "ETH.svg")
    (Build_Token "USD" "US Dollar" "USD.svg")
  = div (num 1) (num 1600) /\
  (isFinite (num 1600) = true -> isFinite (num 1) = true ->
   isNaN (getExchangeRate (<["ETH" := num 1600]> (<["USD" := num 1]> ∅))
            (Build_Token "ETH" "Ethereum" "ETH.svg")
            (Build_Token "USD" "US Dollar" "USD.svg")) = false).
Proof.
  apply (getExchangeRate_quotient
           (<["ETH" := num 1600]> (<["USD" := num 1]> ∅))
           (Build_Token "ETH" "Ethereum" "ETH.svg")
           (Build_Token "USD" "US Dollar" "USD.svg")
           (num 1600) (num 1)); reflexivity.
Defined.

(** X15.  A token whose symbol is an ordinary name and no currency of
    the fetched list has the rate [0] with every other token, in both
    directions. *)
Theorem getExchangeRate_unlisted (data : list PriceItem)
  (token other : Token) :
  ordinary (symbol token) ->
  Forall (fun item => currency item <> symbol token) data ->
  getExchangeRate (priceMap data) token other = num 0 /\
  getExchangeRate (priceMap data) other token = num 0.
Proof.
  intros Hord H. apply priceMap_absent in H.
  split; apply getExchangeRate_no_price; [left|right];
    unfold no_price; now rewrite H.
Qed.

Lemma getExchangeRate_unlisted_witness :
  getExchangeRate (priceMap [Build_PriceItem "ETH" (num 1600)])
    (Build_Token "LUNA" "Terra" "LUNA.svg")
    (Build_Token "ETH" "Ethereum" "ETH.svg") = num 0 /\
  getExchangeRate (priceMap [Build_PriceItem "ETH" (num 1600)])
    (Build_Token "ETH" "Ethereum" "ETH.svg")
    (Build_Token "LUNA" "Terra" "LUNA.svg") = num 0.
Proof.
  apply (getExchangeRate_unlisted
           [Build_PriceItem "ETH" (num 1600)]
           (Build_Token "LUNA" "Terra" "LUNA.svg")
           (Build_Token "ETH" "Ethereum" "ETH.svg")).
  - reflexivity.
  - repeat constructor. discriminate.
Defined.

(** X16.  The delay before a retry doubles from one second on and is capped
    at thirty seconds: it is [min(1000 * 2^k, 30000)] exactly, for every
    number [k] of failed attempts, also when [2^k] overflows. *)
Theorem retryDelay_doubles_to_cap (attemptIndex : nat) :
  retryDelay attemptIndex
  = num (Z.min (1000 * 2 ^ Z.of_nat attemptIndex) 30000) /\
  le (retryDelay attemptIndex) (num 30000) = true.
Proof.
  do 5 (destruct attemptIndex as [|attemptIndex];
        [split; vm_compute; reflexivity|]).
  rewrite retryDelay_capped by lia. split; [|reflexivity].
  f_equal. symmetry. apply Z.min_r.
  assert (2 ^ 5 <= 2 ^ Z.of_nat (S (S (S (S (S attemptIndex))))))
    by (apply Z.pow_le_mono_r; lia).
  change (2 ^ 5) with 32 in H. lia.
Qed.

(** X19.  On the tokens that the form offers, whose symbols are ordinary
    names, the rate is the quotient of the two prices when both are there
    and neither is zero or NaN, and [0] otherwise. *)
Theorem getExchangeRate_TOKENS (prices : gmap string number)
  (selectedFromToken selectedToToken : Token) :
  In selectedFromToken TOKENS -> In selectedToToken TOKENS ->
  getExchangeRate prices selectedFromToken selectedToToken
  = match prices !! symbol selectedFromToken,
          prices !! symbol selectedToToken with
    | Some fromPrice, Some toPrice =>
        if ToBoolean fromPrice && ToBoolean toPrice
        then div toPrice fromPrice
        else num 0
    | _, _ => num 0
    end.
Proof.
  intros Hfrom Hto.
  pose proof TOKENS_ordinary as Hord. rewrite List.Forall_forall in Hord.
  pose proof (Hord _ Hfrom) as Of. pose proof (Hord _ Hto) as Ot.
  destruct (prices !! symbol selectedFromToken) as [fromPrice|] eqn:Hf.
  - destruct (prices !! symbol selectedToToken) as [toPrice|] eqn:Ht.
    + destruct (ToBoolean fromPrice) eqn:Hbf.
      * destruct (ToBoolean toPrice) eqn:Hbt; cbn [andb].
        -- now apply getExchangeRate_prices.
        -- apply getExchangeRate_no_price. right.
           unfold no_price. now rewrite Ht.
      * apply getExchangeRate_no_price. left.
        unfold no_price. now rewrite Hf.
    + apply getExchangeRate_no_price. right.
      unfold no_price. now rewrite Ht.
  - apply getExchangeRate_no_price. left.
    unfold no_price. now rewrite Hf.
Qed.

Lemma getExchangeRate_TOKENS_witness :
  getExchangeRate (<["ETH" := num 1600]> (<["USDC" := num 1]> ∅))
    (Build_Token "ETH" "Ethereum" "https://raw.githubusercontent.com/Switcheo/token-icons/main/tokens/ETH.svg")
    (Build_Token "USDC" "USD Coin" "https://raw.githubusercontent.com/Switcheo/token-icons/main/tokens/USDC.svg")
  = div (num 1) (num 1600).
Proof.
  rewrite getExchangeRate_TOKENS.
  - vm_compute. reflexivity.
  - right. left. reflexivity.
  - do 3 right. left. reflexivity.
Defined.

End SwapProperties.

(** ** The three sums on numbers that are not integers *)

Section OrderFacts.

(** The exponent of a canonical mantissa, and the size of the mantissa. *)
Lemma canonical_bounds (m : positive) (e : Z) :
  canonical_mantissa prec emax m e = true ->
  -1074 <= e /\ Z.pos m < 2 ^ 53 /\ (-1074 < e -> 2 ^ 52 <= Z.pos m).
Proof.
  unfold canonical_mantissa, fexp, emin, prec, emax. intros H.
  apply Z.eqb_eq in H.
  pose proof (digits2_pos_gt m) as Hgt. pose proof (digits2_pos_le m) as Hle.
  split; [lia|]. split.
  - eapply Z.lt_le_trans; [exact Hgt|]. apply Z.pow_le_mono_r; lia.
  - intros He. replace (Z.pos (digits2_pos m)) with 53 in Hle by lia.
    exact Hle.
Qed.

(** [<=] on two positive binary64 values is the order of their values,
    here scaled to integers by [2^1074]. *)
Lemma le_canonical (m1 m2 : positive) (e1 e2 : Z) :
  canonical_mantissa prec emax m1 e1 = true ->
  canonical_mantissa prec emax m2 e2 = true ->
  le (S754_finite false m1 e1) (S754_finite false m2 e2)
  = (Z.pos m1 * 2 ^ (e1 + 1074) <=? Z.pos m2 * 2 ^ (e2 + 1074)).
Proof.
  intros H1 H2.
  destruct (canonical_bounds m1 e1 H1) as (He1 & Hm1 & Hn1).
  destruct (canonical_bounds m2 e2 H2) as (He2 & Hm2 & Hn2).
  assert (Hp1 : 0 < 2 ^ (e1 + 1074)) by (apply Z.pow_pos_nonneg; lia).
  assert (Hp2 : 0 < 2 ^ (e2 + 1074)) by (apply Z.pow_pos_nonneg; lia).
  unfold le, SFleb, SFcompare.
  destruct (Z.compare_spec e1 e2) as [He|He|He].
  - subst e2. rewrite Pos.compare_cont_spec. cbn [Pos.switch_Eq].
    destruct (Pos.compare_spec m1 m2) as [Hc|Hc|Hc];
      destruct (Z.leb_spec (Z.pos m1 * 2 ^ (e1 + 1074))
                           (Z.pos m2 * 2 ^ (e1 + 1074))) as [Hv|Hv];
      try reflexivity; exfalso.
    + subst m2. lia.
    + apply Pos2Z.pos_lt_pos in Hc. nia.
    + apply Pos2Z.pos_lt_pos in Hc. nia.
  - specialize (Hn2 ltac:(lia)).
    assert (2 * 2 ^ (e1 + 1074) <= 2 ^ (e2 + 1074)).
    { replace (e2 + 1074) with (1 + (e1 + 1074) + (e2 - e1 - 1)) by lia.
      rewrite (Z.pow_add_r 2 (1 + (e1 + 1074)) (e2 - e1 - 1)) by lia.
      rewrite (Z.pow_add_r 2 1 (e1 + 1074)) by lia. change (2 ^ 1) with 2.
      assert (0 < 2 ^ (e2 - e1 - 1)) by (apply Z.pow_pos_nonneg; lia). nia. }
    change (2 ^ 53) with (2 * 4503599627370496) in Hm1.
    change (2 ^ 52) with 4503599627370496 in Hn2.
    destruct (Z.leb_spec (Z.pos m1 * 2 ^ (e1 + 1074))
                         (Z.pos m2 * 2 ^ (e2 + 1074))); [reflexivity|nia].
  - specialize (Hn1 ltac:(lia)).
    assert (2 * 2 ^ (e2 + 1074) <= 2 ^ (e1 + 1074)).
    { replace (e1 + 1074) with (1 + (e2 + 1074) + (e1 - e2 - 1)) by lia.
      rewrite (Z.pow_add_r 2 (1 + (e2 + 1074)) (e1 - e2 - 1)) by lia.
      rewrite (Z.pow_add_r 2 1 (e2 + 1074)) by lia. change (2 ^ 1) with 2.
      assert (0 < 2 ^ (e1 - e2 - 1)) by (apply Z.pow_pos_nonneg; lia). nia. }
    change (2 ^ 53) with (2 * 4503599627370496) in Hm2.
    change (2 ^ 52) with 4503599627370496 in Hn1.
    destruct (Z.leb_spec (Z.pos m1 * 2 ^ (e1 + 1074))
                         (Z.pos m2 * 2 ^ (e2 + 1074))); [nia|reflexivity].
Qed.

(** A positive integer below [2^53] is at most a positive binary64 value
    when it is at most the whole part of the value. *)
Lemma le_num_ToLength (c : Z) (m : positive) (e : Z) :
  1 <= c < 2 ^ 53 ->
  is_binary64 (S754_finite false m e) = true ->
  ToLength (S754_finite false m e) < 2 ^ 53 - 1 ->
  le (num c) (S754_finite false m e)
  = (c <=? ToLength (S754_finite false m e)).
Proof.
  intros Hc Hv Hlen.
  unfold is_binary64, valid_binary, bounded in Hv.
  apply andb_prop in Hv as [Hv _].
  destruct (canonical_bounds m e Hv) as (He & _ & _).
  destruct c as [|p|p]; try lia.
  destruct (num_pos p) as (mc & Hmc & ->); [lia|].
  pose proof (digits2_pos_small p ltac:(lia)) as Hdp.
  assert (Hcan : canonical_mantissa prec emax mc (Z.pos (digits2_pos p) - 53)
                 = true).
  { unfold canonical_mantissa. apply Z.eqb_eq.
    rewrite (digits2_pos_shift mc p (53 - Z.pos (digits2_pos p)))
      by (lia || exact Hmc).
    unfold fexp, emin, prec, emax. lia. }
  rewrite (le_canonical _ _ _ _ Hcan Hv). rewrite Hmc.
  rewrite <- Z.mul_assoc, <- Z.pow_add_r by lia.
  replace (53 - Z.pos (digits2_pos p) + (Z.pos (digits2_pos p) - 53 + 1074))
    with 1074 by lia.
  unfold ToLength in *.
  destruct (Z.leb_spec 0 e) as [H0|H0].
  - rewrite Z.min_l in * by lia.
    rewrite Z.pow_add_r by lia.
    assert (0 < 2 ^ 1074) by (apply Z.pow_pos_nonneg; lia).
    destruct (Z.leb_spec (Z.pos p * 2 ^ 1074)
                         (Z.pos m * (2 ^ e * 2 ^ 1074))),
             (Z.leb_spec (Z.pos p) (Z.pos m * 2 ^ e));
      try reflexivity; nia.
  - rewrite Z.min_l in * by lia.
    replace 1074 with (- e + (e + 1074)) at 1 by lia.
    rewrite Z.pow_add_r by lia.
    assert (Hq : 0 < 2 ^ (e + 1074)) by (apply Z.pow_pos_nonneg; lia).
    assert (Hr : 0 < 2 ^ (- e)) by (apply Z.pow_pos_nonneg; lia).
    pose proof (Z.div_mod (Z.pos m) (2 ^ (- e)) ltac:(lia)) as Hdm.
    pose proof (Z.mod_pos_bound (Z.pos m) (2 ^ (- e)) Hr) as Hmod.
    rewrite Z.mul_assoc.
    revert Hdm Hmod Hq Hr.
    generalize (2 ^ (- e)) (2 ^ (e + 1074)) (Z.pos m / 2 ^ (- e))
               (Z.pos m mod 2 ^ (- e)).
    intros a b q r Hdm Hmod Hb Ha.
    destruct (Z.leb_spec (Z.pos p * a * b) (Z.pos m * b)) as [H1|H1],
             (Z.leb_spec (Z.pos p) q) as [H2|H2];
      try reflexivity; exfalso.
    + assert (Z.pos p * a <= Z.pos m) by nia.
      assert ((q + 1) * a <= Z.pos p * a) by nia. lia.
    + assert (Z.pos m < Z.pos p * a) by nia.
      assert (Z.pos p * a <= q * a) by nia. lia.
Qed.

End OrderFacts.

Module SumWholeFacts.
Import SumToN SumFacts.

(** The loop from [i = c] on, with [r] iterations to go, for a bound [n]
    whose whole part is [k]. *)
Lemma while_loop_sum_whole (n : number) (k : Z) (r : nat) :
  (forall c, 1 <= c <= k + 1 -> le (num c) n = (c <=? k)) ->
  forall (c : Z) (s : number) (fuel : nat),
    1 <= c -> c + Z.of_nat r = k + 1 -> k + 1 < 2 ^ 53 ->
    (r < fuel)%nat ->
    while_loop fuel
      (fun v => le (i v) n)
      (fun v => make (add (sum v) (i v)) (add (i v) (num 1)))
      (make s (num c))
    = Some (make (fold_left add (map num (seqZ c (Z.of_nat r))) s)
                 (num (k + 1))).
Proof.
  intros Hle.
  induction r as [|r IH]; intros c s fuel Hc Hr Hk Hfuel;
    (destruct fuel as [|fuel]; [lia|]); cbn [while_loop i sum].
  - rewrite Hle by lia.
    destruct (Z.leb_spec c k) as [H|H]; [lia|].
    replace c with (k + 1) by lia. reflexivity.
  - rewrite Hle by lia.
    destruct (Z.leb_spec c k) as [H|H]; [|lia].
    rewrite add_num by lia.
    rewrite (IH (c + 1)) by lia.
    rewrite (seqZ_cons c (Z.of_nat (S r))) by lia. cbn [map fold_left].
    replace (Z.succ c) with (c + 1) by lia.
    replace (Z.pred (Z.of_nat (S r))) with (Z.of_nat r) by lia.
    reflexivity.
Qed.

Lemma sum_to_n_b_whole (n : number) (k : Z) (fuel : nat) :
  (forall c, 1 <= c <= k + 1 -> le (num c) n = (c <=? k)) ->
  0 <= k -> k + 1 < 2 ^ 53 -> (Z.to_nat k < fuel)%nat ->
  sum_to_n_b fuel n = Some (sum_in_order k).
Proof.
  intros Hle H0 Hk Hfuel. unfold sum_to_n_b.
  rewrite (while_loop_sum_whole n k (Z.to_nat k) Hle 1 (num 0) fuel) by lia.
  cbn. unfold sum_in_order. now rewrite Z2Nat.id by lia.
Qed.

Lemma sum_to_n_c_whole (engine : memory) (n : number) :
  0 <= ToLength n <= 2 ^ 32 - 1 ->
  ToLength n <= Z.of_N (array_limit engine) ->
  sum_to_n_c engine n = Normal (sum_in_order (ToLength n)).
Proof.
  intros Hk Hlimit. unfold sum_to_n_c, Array_from_length.
  destruct (Z.ltb_spec (2 ^ 32 - 1) (ToLength n)) as [H|_]; [lia|].
  destruct (Z.ltb_spec (Z.of_N (array_limit engine)) (ToLength n)) as [H|_];
    [lia|].
  cbn. unfold Array_reduce, sum_in_order. f_equal.
  rewrite <- (Z2Nat.id (ToLength n)) by lia.
  rewrite map_succ_seqZ by lia. reflexivity.
Qed.

(** The whole part of a positive finite number. *)
Lemma ToLength_nonneg (n : number) : 0 <= ToLength n.
Proof.
  unfold ToLength. destruct n as [s|[|]| |[|] m e]; try lia.
  apply Z.min_glb; [|lia].
  destruct (Z.leb_spec 0 e).
  - apply Z.mul_nonneg_nonneg; [lia|]. apply Z.pow_nonneg. lia.
  - apply Z.div_pos; [lia|]. apply Z.pow_pos_nonneg; lia.
Qed.

(** The loops on a positive finite number whose whole part is below
    [2^53 - 1]. *)
Lemma sum_to_n_b_finite (m : positive) (e : Z) (fuel : nat) :
  is_binary64 (S754_finite false m e) = true ->
  ToLength (S754_finite false m e) < 2 ^ 53 - 1 ->
  (Z.to_nat (ToLength (S754_finite false m e)) < fuel)%nat ->
  sum_to_n_b fuel (S754_finite false m e)
  = Some (sum_in_order (ToLength (S754_finite false m e))).
Proof.
  intros Hv Hlen Hfuel.
  pose proof (ToLength_nonneg (S754_finite false m e)) as H0.
  change (2 ^ 53 - 1) with 9007199254740991 in Hlen.
  apply sum_to_n_b_whole; auto.
  - intros c Hc. apply le_num_ToLength; [|exact Hv|exact Hlen].
    change (2 ^ 53) with 9007199254740992. lia.
  - change (2 ^ 53) with 9007199254740992. lia.
Qed.

End SumWholeFacts.

Section SumWholeProperties.
Import SumToN SumFacts SumWholeFacts.

(** X17.  On every positive finite number [n], integer or not, whose whole
    part [k] is at most [2^32 - 1] and no more than the longest array that
    the engine builds, the three functions return the same number, the sum
    [1 + 2 + ... + k]: the loops whenever they are given more than [k]
    iterations, and the array version. *)
Theorem sum_to_n_whole_part (engine : memory) (n : number) :
  is_binary64 n = true -> isFinite n = true -> gt n (num 0) = true ->
  ToLength n <= 2 ^ 32 - 1 ->
  ToLength n <= Z.of_N (array_limit engine) ->
  let k := ToLength n in
  (forall fuel, (Z.to_nat k < fuel)%nat ->
     sum_to_n_a fuel n = Some (sum_in_order k) /\
     sum_to_n_b fuel n = Some (sum_in_order k)) /\
  sum_to_n_c engine n = Normal (sum_in_order k) /\
  (k * (k + 1) / 2 < 2 ^ 53 -> sum_in_order k = num (k * (k + 1) / 2)).
Proof.
  intros Hv Hfin Hpos Hlen Hlimit k.
  destruct n as [s|s| |[|] m e];
    try discriminate Hfin; try (destruct s; discriminate Hpos);
    try discriminate Hpos.
  assert (Hk : k <= 2 ^ 32 - 1) by exact Hlen.
  pose proof (ToLength_nonneg (S754_finite false m e)) as H0. fold k in H0.
  change (2 ^ 32 - 1) with 4294967295 in Hk.
  split; [|split].
  - intros fuel Hfuel. rewrite sum_to_n_a_b.
    split; apply sum_to_n_b_finite; auto;
      change (2 ^ 53 - 1) with 9007199254740991; fold k; lia.
  - apply sum_to_n_c_whole; [|exact Hlimit]. fold k.
    change (2 ^ 32 - 1) with 4294967295. lia.
  - intros Hs. apply sum_in_order_exact; lia.
Qed.

Lemma sum_to_n_whole_part_witness :
  (forall fuel, (Z.to_nat 2 < fuel)%nat ->
     sum_to_n_a fuel (decimal 25 1) = Some (sum_in_order 2) /\
     sum_to_n_b fuel (decimal 25 1) = Some (sum_in_order 2)) /\
  sum_to_n_c unlimited (decimal 25 1) = Normal (sum_in_order 2) /\
  (2 * (2 + 1) / 2 < 2 ^ 53 -> sum_in_order 2 = num (2 * (2 + 1) / 2)).
Proof.
  apply (sum_to_n_whole_part unlimited (decimal 25 1));
    vm_compute; congruence.
Defined.

(** X18.  On every finite number whose whole part [k] is from [2^32] to
    [2^53 - 2] the functions part ways: the two loops return the sum
    [1 + 2 + ... + k], added up in binary64, whenever they are given more
    than [k] iterations, and the array version throws a RangeError on
    every engine. *)
Theorem sum_to_n_array_limit (n : number) :
  is_binary64 n = true -> isFinite n = true ->
  2 ^ 32 <= ToLength n < 2 ^ 53 - 1 ->
  let k := ToLength n in
  (forall fuel, (Z.to_nat k < fuel)%nat ->
     sum_to_n_a fuel n = Some (sum_in_order k) /\
     sum_to_n_b fuel n = Some (sum_in_order k)) /\
  forall engine : memory, sum_to_n_c engine n = Throw RangeError.
Proof.
  intros Hv Hfin [Hlo Hhi] k.
  change (2 ^ 32) with 4294967296 in Hlo.
  destruct n as [s|s| |[|] m e];
    try discriminate Hfin; try (cbn [ToLength] in Hlo; lia).
  split.
  - intros fuel Hfuel. rewrite sum_to_n_a_b.
    split; now apply sum_to_n_b_finite.
  - intros engine. unfold sum_to_n_c, Array_from_length.
    destruct (Z.ltb_spec (2 ^ 32 - 1) (ToLength (S754_finite false m e)))
      as [_|H]; [reflexivity|].
    change (2 ^ 32 - 1) with 4294967295 in H. lia.
Qed.

Lemma sum_to_n_array_limit_witness :
  (forall fuel,
     (Z.to_nat (ToLength (num (2 ^ 40))) < fuel)%nat ->
     sum_to_n_a fuel (num (2 ^ 40))
     = Some (sum_in_order (ToLength (num (2 ^ 40)))) /\
     sum_to_n_b fuel (num (2 ^ 40))
     = Some (sum_in_order (ToLength (num (2 ^ 40))))) /\
  forall engine : memory, sum_to_n_c engine (num (2 ^ 40)) = Throw RangeError.
Proof.
  refine (sum_to_n_array_limit (num (2 ^ 40)) _ _ _).
  - reflexivity.
  - reflexivity.
  - split; [discriminate|reflexivity].
Defined.

End SumWholeProperties.


(** ** The page on different engines and on amounts of any type *)

Module EngineFacts.
Import OptimizedWalletPage OptimizedFacts.








End EngineFacts.

Section EngineProperties.
Import OptimizedWalletPage OptimizedFacts EngineFacts.

(** X20.  When the chains of the balances with a positive amount have
    ordinary names, the output of the page does not depend on the engine:
    any two sorts that ECMA-262 allows give the same list, that of the
    insertion sort. *)
Theorem page_on_every_engine (sort sort' : sort_fn)
  (Hsort : conforming sort) (Hsort' : conforming sort')
  (balances : list WalletBalance.t) (prices : gmap string number) :
  ordinary_chains balances ->
  formattedBalances sort balances prices
  = formattedBalances sort' balances prices /\
  formattedBalances sort balances prices
  = formattedBalances insertion_sort balances prices.
Proof.
  intros Hord.
  assert (H : forall s : sort_fn, conforming s ->
            formattedBalances s balances prices
            = formattedBalances insertion_sort balances prices).
  { intros s Hs. unfold formattedBalances, sortedBalances. f_equal.
    apply (sort_insertion s Hs).
    apply comparator_consistent. now apply filtered_resolved. }
  split; [|now apply H]. now rewrite (H sort Hsort), (H sort' Hsort').
Qed.

Lemma page_on_every_engine_witness :
  formattedBalances V8_sort mockBalances mockPrices
  = formattedBalances insertion_sort mockBalances mockPrices /\
  formattedBalances V8_sort mockBalances mockPrices
  = formattedBalances insertion_sort mockBalances mockPrices.
Proof.
  apply (page_on_every_engine V8_sort insertion_sort
           V8_sort_conforming insertion_sort_conforming
           mockBalances mockPrices).
  repeat constructor.
Defined.



End EngineProperties.

(** * Examples *)

Section Examples.

Example toFixed_10 : toFixed (num 10) 2 = Normal "10.00".
Proof. vm_compute. reflexivity. Qed.

Example toFixed_100_5 : toFixed (decimal 1005 1) 2 = Normal "100.50".
Proof. vm_compute. reflexivity. Qed.

(** [1.005] is below its decimal literal, so it rounds down. *)
Example toFixed_1_005 : toFixed (decimal 1005 3) 2 = Normal "1.00".
Proof. vm_compute. reflexivity. Qed.

Example toFixed_2_5 : toFixed (decimal 25 1) 0 = Normal "3".
Proof. vm_compute. reflexivity. Qed.

Example toFixed_minus_zero : toFixed (S754_zero true) 2 = Normal "0.00".
Proof. vm_compute. reflexivity. Qed.

Example toFixed_2_pow_70 :
  toFixed (num (2 ^ 70)) 2 = Normal "1.1805916207174113e+21".
Proof. vm_compute. reflexivity. Qed.

Example toFixed_Infinity : toFixed Infinity 2 = Normal "Infinity".
Proof. vm_compute. reflexivity. Qed.

Example toFixed_RangeError : toFixed (num 5) 101 = Throw RangeError.
Proof. vm_compute. reflexivity. Qed.

(** The members that the priority table inherits. *)
Example getPriority_inherited_names :
  map OptimizedWalletPage.getPriority
      ["Osmosis"; "Bitcoin"; "constructor"; "toString"; "__proto__"]
  = [Num (num 100); Num (num (-99)); Obj inh_constructor; Obj inh_toString;
     Obj inh_proto].
Proof. vm_compute. reflexivity. Qed.

(** The page on the balances and prices of the demo, on the insertion sort
    and on the sort of V8. *)
Example optimized_on_mock :
  forall sort : sort_fn, sort = insertion_sort \/ sort = V8_sort ->
  option_map (map (fun f => (FormattedWalletBalance.currency f,
                             FormattedWalletBalance.formatted f)))
    match OptimizedWalletPage.formattedBalances sort mockBalances mockPrices
    with
    | Normal out => Some out
    | Throw _ => None
    end
  = Some [("OSMO", "100.50"); ("ETH", "2.30"); ("ARB", "50.00");
          ("ZIL", "1000.00"); ("NEO", "25.50"); ("BTC", "0.10")].
Proof. intros sort [->| ->]; vm_compute; reflexivity. Qed.

(** The problematic page shows the one balance of the demo that is zero and
    on a known chain. *)
Example problematic_on_mock :
  ProblematicWalletPage.sortedBalances insertion_sort mockBalances
  = [WalletBalance.make "USDT" (num 0) "Ethereum"].
Proof. vm_compute. reflexivity. Qed.

(** Three balances of which one is positive; [0.1 * 10] is [1]. *)
Example one_positive_balance :
  OptimizedWalletPage.formattedBalances insertion_sort
    [WalletBalance.make "SWTH" (num 10) "Ethereum";
     WalletBalance.make "BTC" (num 0) "Osmosis";
     WalletBalance.make "ETH" (num (-5)) "Neo"]
    (<["SWTH" := decimal 1 1]> ∅)
  = Normal [FormattedWalletBalance.make "SWTH" (num 10) "10.00" "Ethereum"
              (num 1) (Num (num 50))].
Proof. vm_compute. reflexivity. Qed.

(** Zero times infinity is NaN: an infinite amount without a price has no
    [usdValue] of zero. *)
Example infinite_amount_without_price :
  OptimizedWalletPage.formattedBalances insertion_sort
    [WalletBalance.make "ETH" Infinity "Ethereum"] ∅
  = Normal [FormattedWalletBalance.make "ETH" Infinity "Infinity" "Ethereum"
              NaN (Num (num 50))].
Proof. vm_compute. reflexivity. Qed.

(** With chains named after inherited members the insertion sort and the
    sort of V8 give different orders. *)
Example engines_differ :
  let balances :=
    [WalletBalance.make "X" (num 1) "constructor";
     WalletBalance.make "W" (num 1) "toString";
     WalletBalance.make "L" (num 1) "Zilliqa";
     WalletBalance.make "Y" (num 1) "valueOf";
     WalletBalance.make "P1" (num 1) "Ethereum";
     WalletBalance.make "H" (num 1) "Osmosis";
     WalletBalance.make "P2" (num 1) "Ethereum"] in
  map PrioritizedBalance.currency
      (OptimizedWalletPage.sortedBalances insertion_sort balances)
  = ["X"; "W"; "L"; "Y"; "H"; "P1"; "P2"] /\
  map PrioritizedBalance.currency
      (OptimizedWalletPage.sortedBalances V8_sort balances)
  = ["X"; "W"; "H"; "P2"; "L"; "Y"; "P1"].
Proof. vm_compute. split; reflexivity. Qed.

(** A numeral in a string passes the filter and has no [toFixed]. *)
Example amount_in_a_string :
  Untyped.formattedBalances insertion_sort
    [Untyped.make_balance "ETH" (Str "5" (num 5)) "Ethereum"] mockPrices
  = Throw TypeError.
Proof. vm_compute. reflexivity. Qed.

Example sum_to_n_a_10 : SumToN.sum_to_n_a 11 (num 10) = Some (num 55).
Proof. vm_compute. reflexivity. Qed.

Example sum_to_n_a_fuel : SumToN.sum_to_n_a 10 (num 10) = None.
Proof. vm_compute. reflexivity. Qed.

Example sum_to_n_b_10 : SumToN.sum_to_n_b 11 (num 10) = Some (num 55).
Proof. vm_compute. reflexivity. Qed.

Example sum_to_n_c_10 :
  SumToN.sum_to_n_c unlimited (num 10) = Normal (num 55).
Proof. vm_compute. reflexivity. Qed.

Example sum_to_n_c_0 : SumToN.sum_to_n_c unlimited (num 0) = Normal (num 0).
Proof. vm_compute. reflexivity. Qed.

(** On an engine that builds arrays of up to [2^27 - 1] elements the array
    version throws from [n = 2^27] on. *)
Example sum_to_n_c_engine_limit :
  SumToN.sum_to_n_c
    {| array_limit := 134217727; exhausted := fun _ => false |}
    (num (2 ^ 27))
  = Throw RangeError.
Proof. vm_compute. reflexivity. Qed.

(** The sum [1 + ... + 134217729] is odd and above [2^53]: no number has
    this value, the nearest one is the even integer below it. *)
Example sum_not_representable :
  num (134217729 * 134217730 / 2) = num (134217729 * 134217730 / 2 - 1).
Proof. vm_compute. reflexivity. Qed.

(** Two chains and currencies whose names run into each other at a dash
    get the same row key. *)
Example row_keys_collide :
  exists r1 r2,
    OptimizedRows.rows insertion_sort
      [WalletBalance.make "c" (num 1) "a-b";
       WalletBalance.make "b-c" (num 1) "a"] ∅
    = Normal [r1; r2] /\
    OptimizedRows.key r1 = OptimizedRows.key r2.
Proof. do 2 eexists. split; [vm_compute; reflexivity|reflexivity]. Qed.

(** An assignment to [__proto__] makes no entry of the price map. *)
Example priceMap_proto_item :
  CurrencySwap.priceMap
    [CurrencySwap.Build_PriceItem "__proto__" (num 5);
     CurrencySwap.Build_PriceItem "ETH" (num 1600)]
  = <["ETH" := num 1600]> ∅.
Proof. reflexivity. Qed.

(** A token named after an inherited member has the rate NaN. *)
Example rate_of_inherited_symbol :
  CurrencySwap.getExchangeRate (<["ETH" := num 1600]> ∅)
    (CurrencySwap.Build_Token "constructor" "Constructor" "")
    (CurrencySwap.Build_Token "ETH" "Ethereum" "")
  = NaN.
Proof. vm_compute. reflexivity. Qed.

(** The delays before the retries. *)
Example retryDelay_first :
  map CurrencySwap.retryDelay [0; 1; 2; 3; 4; 5; 6]%nat
  = map num [1000; 2000; 4000; 8000; 16000; 30000; 30000].
Proof. vm_compute. reflexivity. Qed.

End Examples.
